(** * monitor_serial.py: a ten-second serial console monitor

    A shallow embedding of [src/monitor_serial.py] and the properties of
    its observable behaviour: what reaches standard output, the exit
    status, which device calls are made, and how long the poll loop runs.

    The script talks to three things outside itself: the serial driver
    (pyserial's [Serial], [in_waiting], [read], [close]), the wall clock
    ([time.time], [time.sleep]) and standard output ([print],
    [sys.stdout.flush]).  They are modelled by an explicit [world] that is
    threaded through the program, together with a [script] of what the
    device does at each driver call.

    Modelling choices.  A driver call can raise an [Exception] with a
    message.  In the first part of the file standard output accepts
    everything written to it and nothing interrupts the process; the
    module [Process] runs the same statements in a process where a write
    to standard output can fail and SIGINT can arrive at any call, and
    adds what the interpreter does when it shuts down.  The clock counts
    whole milliseconds: [time.sleep(0.1)] lasts 100 of them, a [read]
    returns within the timeout given to [Serial], every other call takes
    no time.  The [while] loop is a fixpoint on fuel; [run_total] shows
    that the fuel given to [run] is never used up. *)

From Stdlib Require Import ZArith Strings.String Strings.Ascii Strings.Byte Bool Lia List.
From Stdlib Require Import DecimalString.
Import ListNotations.

Local Open Scope Z_scope.

(** ** Python values *)

(** A Python [str] is a sequence of code points; a [bytes] object is a
    sequence of bytes. *)
Definition pystr := list Z.
Definition bytes := list byte.

Definition byte_val (b : byte) : Z := Z.of_N (Byte.to_N b).

(** A string literal of the source, as a [str]. *)
Definition lit (s : string) : pystr :=
  map (fun a => Z.of_nat (nat_of_ascii a)) (list_ascii_of_string s).

(** ["-" * 60] and friends. *)
Definition str_mul (s : pystr) (n : nat) : pystr := List.concat (repeat s n).

Definition newline : pystr := [10].

(** ** The UTF-8 codec

    [bytes.decode('utf-8', errors=...)] scans the input from left to right.
    At each position it either decodes one code point from one to four
    bytes, or reports a malformed range to the error handler: an invalid
    start byte (one byte), an invalid continuation byte (the one to three
    bytes before it that looked well-formed), or an unexpected end of data
    (everything that is left). *)

Inductive decode_reason :=
| InvalidStart
| InvalidContinuation
| UnexpectedEnd.

Inductive utf8_item :=
| Char (c : Z) (width : nat)
| Malformed (reason : decode_reason) (first : Z) (width : nat).

(** [IS_CONTINUATION_BYTE]. *)
Definition is_continuation (ch : Z) : bool := (0x80 <=? ch) && (ch <? 0xC0).

Fixpoint utf8_scan (s : bytes) : list utf8_item :=
  match s with
  | [] => []
  | c1 :: s1 =>
    let ch := byte_val c1 in
    if ch <? 0x80 then Char ch 1 :: utf8_scan s1
    else if ch <? 0xE0 then
      (* \xC2\x80-\xDF\xBF: 0080-07FF *)
      if ch <? 0xC2 then Malformed InvalidStart ch 1 :: utf8_scan s1
      else
        match s1 with
        | [] => [Malformed UnexpectedEnd ch 1]
        | c2 :: s2 =>
          let ch2 := byte_val c2 in
          if negb (is_continuation ch2)
          then Malformed InvalidContinuation ch 1 :: utf8_scan s1
          else Char (Z.shiftl ch 6 + ch2 - (Z.shiftl 0xC0 6 + 0x80)) 2
                 :: utf8_scan s2
        end
    else if ch <? 0xF0 then
      (* \xE0\xA0\x80-\xEF\xBF\xBF: 0800-FFFF, surrogates excluded *)
      match s1 with
      | [] => [Malformed UnexpectedEnd ch 1]
      | c2 :: s2 =>
        let ch2 := byte_val c2 in
        if negb (is_continuation ch2)
           || (if ch2 <? 0xA0 then ch =? 0xE0 else ch =? 0xED)
        then Malformed InvalidContinuation ch 1 :: utf8_scan s1
        else
          match s2 with
          | [] => [Malformed UnexpectedEnd ch 2]
          | c3 :: s3 =>
            let ch3 := byte_val c3 in
            if negb (is_continuation ch3)
            then Malformed InvalidContinuation ch 2 :: utf8_scan s2
            else Char (Z.shiftl ch 12 + Z.shiftl ch2 6 + ch3
                       - (Z.shiftl 0xE0 12 + Z.shiftl 0x80 6 + 0x80)) 3
                   :: utf8_scan s3
          end
      end
    else if ch <? 0xF5 then
      (* \xF0\x90\x80\x80-\xF4\x8F\xBF\xBF: 10000-10FFFF *)
      match s1 with
      | [] => [Malformed UnexpectedEnd ch 1]
      | c2 :: s2 =>
        let ch2 := byte_val c2 in
        if negb (is_continuation ch2)
           || (if ch2 <? 0x90 then ch =? 0xF0 else ch =? 0xF4)
        then Malformed InvalidContinuation ch 1 :: utf8_scan s1
        else
          match s2 with
          | [] => [Malformed UnexpectedEnd ch 2]
          | c3 :: s3 =>
            let ch3 := byte_val c3 in
            if negb (is_continuation ch3)
            then Malformed InvalidContinuation ch 2 :: utf8_scan s2
            else
              match s3 with
              | [] => [Malformed UnexpectedEnd ch 3]
              | c4 :: s4 =>
                let ch4 := byte_val c4 in
                if negb (is_continuation ch4)
                then Malformed InvalidContinuation ch 3 :: utf8_scan s3
                else Char (Z.shiftl ch 18 + Z.shiftl ch2 12
                           + Z.shiftl ch3 6 + ch4
                           - (Z.shiftl 0xF0 18 + Z.shiftl 0x80 12
                              + Z.shiftl 0x80 6 + 0x80)) 4
                       :: utf8_scan s4
              end
          end
      end
    else Malformed InvalidStart ch 1 :: utf8_scan s1
  end.

(** ** Exceptions *)

(** The two kinds of [Exception] the statements of the script can raise:
    pyserial's [SerialException], whose [str] is its message, and the
    codec's [UnicodeDecodeError]. *)
Inductive exn :=
| SerialException (msg : pystr)
| UnicodeDecodeError (first : Z) (start stop : nat) (reason : decode_reason).

Inductive result (A : Type) :=
| Ok (a : A)
| Raise (e : exn).
Arguments Ok {A} a.
Arguments Raise {A} e.

Definition result_map {A B} (f : A -> B) (r : result A) : result B :=
  match r with
  | Ok a => Ok (f a)
  | Raise e => Raise e
  end.

(** The [errors=] argument of [decode]. *)
Inductive error_handler := strict | ignore | replace.

(** The codec's outer loop: code points are collected, malformed ranges go
    to the handler, which raises ([strict]), skips the range ([ignore]) or
    puts U+FFFD in its place ([replace]). *)
Fixpoint utf8_collect (errors : error_handler) (pos : nat)
                      (items : list utf8_item) : result pystr :=
  match items with
  | [] => Ok []
  | Char c n :: rest => result_map (cons c) (utf8_collect errors (pos + n) rest)
  | Malformed reason first n :: rest =>
    match errors with
    | strict => Raise (UnicodeDecodeError first pos (pos + n) reason)
    | ignore => utf8_collect errors (pos + n) rest
    | replace => result_map (cons 0xFFFD) (utf8_collect errors (pos + n) rest)
    end
  end.

(** [data.decode('utf-8', errors=...)]. *)
Definition decode_utf8 (errors : error_handler) (data : bytes) : result pystr :=
  utf8_collect errors 0 (utf8_scan data).

(** [str(e)]. *)
Definition decimal (n : nat) : pystr := lit (NilZero.string_of_uint (Nat.to_uint n)).

Definition hex_digit (d : Z) : Z := if d <? 10 then 48 + d else 87 + d.

Definition hex2 (b : Z) : pystr := [hex_digit (b / 16); hex_digit (b mod 16)].

Definition reason_text (r : decode_reason) : pystr :=
  match r with
  | InvalidStart => lit "invalid start byte"
  | InvalidContinuation => lit "invalid continuation byte"
  | UnexpectedEnd => lit "unexpected end of data"
  end.

Definition str_exn (e : exn) : pystr :=
  match e with
  | SerialException msg => msg
  | UnicodeDecodeError first start stop reason =>
    if Nat.eqb stop (S start)
    then lit "'utf-8' codec can't decode byte 0x" ++ hex2 first
         ++ lit " in position " ++ decimal start
         ++ lit ": " ++ reason_text reason
    else lit "'utf-8' codec can't decode bytes in position " ++ decimal start
         ++ lit "-" ++ decimal (Nat.pred stop)
         ++ lit ": " ++ reason_text reason
  end.

(** ** The world outside the script *)

(** What the device does during one driver call: the bytes that reach the
    driver's receive buffer before the call returns, how long a blocking
    read would be kept waiting (milliseconds), and whether the call fails,
    in which case pyserial raises [SerialException] with that message. *)
Record event := {
  arrived : bytes;
  delay : nat;
  fault : option pystr
}.

Definition quiet : event := {| arrived := []; delay := 0; fault := None |}.

(** Every call the script makes to the outside, with what it got back. *)
Inductive call :=
| COpen (port : string) (baudrate : Z) (timeout : Z) (r : result unit)
| CInWaiting (r : result nat)
| CRead (size : nat) (r : result bytes)
| CClose (r : result unit)
| CTime (t : Z)
| CSleep (ms : Z)
| CWrite (s : pystr)
| CFlush.

(** The clock counts milliseconds; [time.time()] returns seconds as a
    float, which the model reads as an exact number of milliseconds. *)
Record world := {
  clock : Z;
  stdout : pystr;
  rx : bytes;
  port_open : bool;
  read_timeout : Z;
  script : list event;
  trace : list call
}.

Definition ms_of_seconds (s : Z) : Z := s * 1000.

(** The process starts at time [t0] with nothing printed and the device
    about to do what [sc] says; once [sc] is used up the device stays
    quiet. *)
Definition boot (t0 : Z) (sc : list event) : world :=
  {| clock := t0; stdout := []; rx := []; port_open := false;
     read_timeout := 0; script := sc; trace := [] |}.

Definition next_event (w : world) : event :=
  match script w with
  | [] => quiet
  | ev :: _ => ev
  end.

(** ** Statements: state, exceptions and fuel

    A statement takes the world to a new world and either completes with a
    value or raises.  [None] means that the fuel of a loop ran out. *)
Definition M (A : Type) : Type := world -> option (result A * world).

Definition ret {A} (a : A) : M A := fun w => Some (Ok a, w).

Definition bind {A B} (m : M A) (k : A -> M B) : M B :=
  fun w =>
    match m w with
    | None => None
    | Some (Raise e, w') => Some (Raise e, w')
    | Some (Ok a, w') => k a w'
    end.

Definition lift_result {A} (r : result A) : M A := fun w => Some (r, w).

Definition out_of_fuel {A} : M A := fun _ => None.

Notation "x <- m ;; k" := (bind m (fun x => k))
  (at level 61, m at next level, right associativity).
Notation "m ;; k" := (bind m (fun _ => k))
  (at level 61, right associativity).

(** ** The calls of the script *)

(** [serial.Serial(port, baudrate, timeout=...)]. *)
Definition Serial (port : string) (baudrate : Z) (timeout : Z) : M unit :=
  fun w =>
    let ev := next_event w in
    match fault ev with
    | Some msg =>
      let r := Raise (SerialException msg) in
      Some (r, {| clock := clock w; stdout := stdout w; rx := rx w;
                  port_open := port_open w; read_timeout := read_timeout w;
                  script := tl (script w);
                  trace := trace w ++ [COpen port baudrate timeout r] |})
    | None =>
      Some (Ok tt, {| clock := clock w; stdout := stdout w;
                      rx := arrived ev;
                      port_open := true;
                      read_timeout := ms_of_seconds timeout;
                      script := tl (script w);
                      trace := trace w ++ [COpen port baudrate timeout (Ok tt)] |})
    end.

(** [ser.in_waiting]: the number of bytes in the receive buffer. *)
Definition ser_in_waiting : M nat :=
  fun w =>
    let ev := next_event w in
    let buf := rx w ++ arrived ev in
    let r := match fault ev with
             | Some msg => Raise (SerialException msg)
             | None => Ok (length buf)
             end in
    Some (r, {| clock := clock w; stdout := stdout w; rx := buf;
                port_open := port_open w; read_timeout := read_timeout w;
                script := tl (script w);
                trace := trace w ++ [CInWaiting r] |}).

(** [ser.read(size)]: up to [size] bytes from the front of the receive
    buffer; the call returns within the read timeout. *)
Definition ser_read (size : nat) : M bytes :=
  fun w =>
    let ev := next_event w in
    let buf := rx w ++ arrived ev in
    match fault ev with
    | Some msg =>
      let r := Raise (SerialException msg) in
      Some (r, {| clock := clock w; stdout := stdout w; rx := buf;
                  port_open := port_open w; read_timeout := read_timeout w;
                  script := tl (script w);
                  trace := trace w ++ [CRead size r] |})
    | None =>
      let r := Ok (firstn size buf) in
      Some (r, {| clock := clock w + Z.min (Z.of_nat (delay ev)) (read_timeout w);
                  stdout := stdout w; rx := skipn size buf;
                  port_open := port_open w; read_timeout := read_timeout w;
                  script := tl (script w);
                  trace := trace w ++ [CRead size r] |})
    end.

(** [ser.close()]. *)
Definition ser_close : M unit :=
  fun w =>
    let ev := next_event w in
    match fault ev with
    | Some msg =>
      let r := Raise (SerialException msg) in
      Some (r, {| clock := clock w; stdout := stdout w; rx := rx w;
                  port_open := port_open w; read_timeout := read_timeout w;
                  script := tl (script w);
                  trace := trace w ++ [CClose r] |})
    | None =>
      Some (Ok tt, {| clock := clock w; stdout := stdout w; rx := [];
                      port_open := false; read_timeout := read_timeout w;
                      script := tl (script w);
                      trace := trace w ++ [CClose (Ok tt)] |})
    end.

(** [time.time()]. *)
Definition time_time : M Z :=
  fun w =>
    Some (Ok (clock w),
          {| clock := clock w; stdout := stdout w; rx := rx w;
             port_open := port_open w; read_timeout := read_timeout w;
             script := script w; trace := trace w ++ [CTime (clock w)] |}).

(** [time.sleep(ms / 1000)]. *)
Definition time_sleep (ms : Z) : M unit :=
  fun w =>
    Some (Ok tt,
          {| clock := clock w + ms; stdout := stdout w; rx := rx w;
             port_open := port_open w; read_timeout := read_timeout w;
             script := script w; trace := trace w ++ [CSleep ms] |}).

(** [print(s, end=e)]. *)
Definition write (s : pystr) (w : world) : world :=
  {| clock := clock w; stdout := stdout w ++ s; rx := rx w;
     port_open := port_open w; read_timeout := read_timeout w;
     script := script w; trace := trace w ++ [CWrite s] |}.

Definition print (s : pystr) (e : pystr) : M unit :=
  fun w => Some (Ok tt, write (s ++ e) w).

(** [sys.stdout.flush()]. *)
Definition stdout_flush : M unit :=
  fun w =>
    Some (Ok tt,
          {| clock := clock w; stdout := stdout w; rx := rx w;
             port_open := port_open w; read_timeout := read_timeout w;
             script := script w; trace := trace w ++ [CFlush] |}).

(** ** The script *)

Definition DEVICE : string := "/dev/cu.SLAB_USBtoUART".
Definition BAUDRATE : Z := 115200.
Definition READ_TIMEOUT : Z := 1.
Definition MONITOR_MS : Z := ms_of_seconds 10.
Definition POLL_MS : Z := 100.

Definition status_line : pystr :=
  lit "Connected to ESP32. Monitoring output for 10 seconds...".
Definition separator : pystr := str_mul (lit "-") 60.
Definition complete_line : pystr := lit "Monitoring complete.".

(** The body of the [while] loop. *)
Definition poll_once : M unit :=
  n <- ser_in_waiting ;;
  (if (0 <? n)%nat then
     size <- ser_in_waiting ;;
     raw <- ser_read size ;;
     data <- lift_result (decode_utf8 ignore raw) ;;
     print data [] ;;
     stdout_flush
   else ret tt) ;;
  time_sleep POLL_MS.

(** [while time.time() - start_time < 10: ...]. *)
Fixpoint poll_loop (fuel : nat) (start_time : Z) : M unit :=
  match fuel with
  | O => out_of_fuel
  | S fuel' =>
    now <- time_time ;;
    if now - start_time <? MONITOR_MS
    then poll_once ;; poll_loop fuel' start_time
    else ret tt
  end.

(** The [try] block. *)
Definition try_block (fuel : nat) : M unit :=
  Serial DEVICE BAUDRATE READ_TIMEOUT ;;
  print status_line newline ;;
  print separator newline ;;
  start_time <- time_time ;;
  poll_loop fuel start_time ;;
  print (newline ++ separator) newline ;;
  print complete_line newline ;;
  ser_close.

(** The whole script: the [try] block and its handler,
    [except Exception as e: print(f"Error: {e}"); sys.exit(1)].
    The handler's [print] appends the line to standard output and
    [sys.exit(1)] ends the process.  The result is the exit status and the
    final world. *)
Definition monitor_serial (fuel : nat) (w : world) : option (Z * world) :=
  match try_block fuel w with
  | None => None
  | Some (Ok _, w') => Some (0, w')
  | Some (Raise e, w') => Some (1, write ((lit "Error: " ++ str_exn e) ++ newline) w')
  end.

(** The loop body sleeps a tenth of a second every time round, so the
    guard holds at most a hundred times: this much fuel is never used
    up ([run_total], [run_fuel_independent]). *)
Definition FUEL : nat := 101.

Definition run (t0 : Z) (sc : list event) : option (Z * world) :=
  monitor_serial FUEL (boot t0 sc).

(** ** What the script is expected to leave behind

    The functions below read the outcome of a run off the list of calls it
    made; the theorems relate them to what the script really does. *)

(** What [decode('utf-8', errors='ignore')] keeps of a scan. *)
Fixpoint kept (items : list utf8_item) : pystr :=
  match items with
  | [] => []
  | Char c _ :: rest => c :: kept rest
  | Malformed _ _ _ :: rest => kept rest
  end.

Definition lenient (data : bytes) : pystr := kept (utf8_scan data).

(** The data ends in the middle of a multi-byte sequence. *)
Definition is_unexpected_end (it : utf8_item) : bool :=
  match it with
  | Malformed UnexpectedEnd _ _ => true
  | _ => false
  end.

Definition cut_short (data : bytes) : bool :=
  existsb is_unexpected_end (utf8_scan data).

Definition is_ascii (c : Z) : bool := c <? 0x80.

(** The calls of a trace, by kind. *)
Definition failure_of (c : call) : list exn :=
  match c with
  | COpen _ _ _ (Raise e) | CInWaiting (Raise e)
  | CRead _ (Raise e) | CClose (Raise e) => [e]
  | _ => []
  end.

Definition failures (tr : list call) : list exn := flat_map failure_of tr.

Definition chunk_of (c : call) : list bytes :=
  match c with
  | CRead _ (Ok data) => [data]
  | _ => []
  end.

(** The chunks of bytes the script read from the device, in order. *)
Definition chunks (tr : list call) : list bytes := flat_map chunk_of tr.

Definition time_of (c : call) : list Z :=
  match c with
  | CTime t => [t]
  | _ => []
  end.

(** The clock readings of a trace. *)
Definition times (tr : list call) : list Z := flat_map time_of tr.

Definition sleep_of (c : call) : list Z :=
  match c with
  | CSleep ms => [ms]
  | _ => []
  end.

Definition sleeps (tr : list call) : list Z := flat_map sleep_of tr.

Definition is_open_ok (c : call) : bool :=
  match c with COpen _ _ _ (Ok _) => true | _ => false end.
Definition is_open_failure (c : call) : bool :=
  match c with COpen _ _ _ (Raise _) => true | _ => false end.
Definition is_poll_failure (c : call) : bool :=
  match c with
  | CInWaiting (Raise _) | CRead _ (Raise _) => true
  | _ => false
  end.
Definition is_close (c : call) : bool :=
  match c with CClose _ => true | _ => false end.
Definition is_close_failure (c : call) : bool :=
  match c with CClose (Raise _) => true | _ => false end.

Definition opened (tr : list call) : bool := existsb is_open_ok tr.
Definition open_failed (tr : list call) : bool := existsb is_open_failure tr.
Definition poll_failed (tr : list call) : bool := existsb is_poll_failure tr.
Definition close_attempted (tr : list call) : bool := existsb is_close tr.
Definition close_failed (tr : list call) : bool := existsb is_close_failure tr.

(** What the device did, as the script saw it: the driver calls and their
    results, without the clock and without the script's own output. *)
Definition is_device_call (c : call) : bool :=
  match c with
  | COpen _ _ _ _ | CInWaiting _ | CRead _ _ | CClose _ => true
  | _ => false
  end.

Definition device_log (tr : list call) : list call := filter is_device_call tr.

(** The text of the device, decoded chunk by chunk. *)
Definition device_text (tr : list call) : pystr :=
  concat (map lenient (chunks tr)).

Definition header : pystr := status_line ++ newline ++ separator ++ newline.
Definition footer : pystr :=
  newline ++ separator ++ newline ++ complete_line ++ newline.
Definition error_line (e : exn) : pystr :=
  lit "Error: " ++ str_exn e ++ newline.

(** Standard output and exit status, as functions of the device log. *)
Definition expected_stdout (tr : list call) : pystr :=
  (if opened tr then header else [])
  ++ device_text tr
  ++ (if close_attempted tr then footer else [])
  ++ flat_map error_line (failures tr).

Definition expected_status (tr : list call) : Z :=
  match failures tr with
  | [] => 0
  | _ :: _ => 1
  end.

(** How a run can end. *)
Inductive ending :=
| Completed
| OpenFailed (e : exn)
| PollFailed (e : exn)
| CloseFailed (e : exn).

Definition no_fault (ev : event) : Prop := fault ev = None.
Definition no_bytes (ev : event) : Prop := arrived ev = [].

(** What one round of the loop does to the world: [delta] is what it adds
    to the trace. *)
Definition poll_step (w : world) (r : result unit) (w' : world)
                     (delta : list call) : Prop :=
  trace w' = trace w ++ delta
  /\ stdout w' = stdout w ++ device_text delta
  /\ port_open w' = port_open w
  /\ read_timeout w' = read_timeout w
  /\ opened delta = false /\ open_failed delta = false
  /\ close_attempted delta = false /\ close_failed delta = false
  /\ times delta = []
  /\ match r with
     | Ok _ => failures delta = [] /\ poll_failed delta = false
               /\ sleeps delta = [POLL_MS]
     | Raise e => failures delta = [e] /\ poll_failed delta = true
                  /\ sleeps delta = []
     end
  /\ (0 <= read_timeout w ->
      clock w + (match r with Ok _ => POLL_MS | Raise _ => 0 end) <= clock w'
      /\ clock w' <= clock w + read_timeout w + POLL_MS)
  /\ (exists k, script w' = skipn k (script w))
  /\ (Forall no_fault (script w) -> exists u, r = Ok u)
  /\ (Forall no_bytes (script w) -> rx w = [] ->
      rx w' = [] /\ chunks delta = []).

(** What the whole loop does to the world, started with [start_time]. *)
Definition loop_post (start_time : Z) (w : world) (r : result unit)
                     (w' : world) (delta : list call) : Prop :=
  trace w' = trace w ++ delta
  /\ stdout w' = stdout w ++ device_text delta
  /\ port_open w' = port_open w
  /\ read_timeout w' = read_timeout w
  /\ opened delta = false /\ open_failed delta = false
  /\ close_attempted delta = false /\ close_failed delta = false
  /\ match r with
     | Ok _ =>
       failures delta = [] /\ poll_failed delta = false
       /\ MONITOR_MS <= clock w' - start_time
       /\ exists early,
           times delta = early ++ [clock w']
           /\ Forall (fun t => t - start_time < MONITOR_MS) early
           /\ length (sleeps delta) = length early
     | Raise e =>
       failures delta = [e] /\ poll_failed delta = true
       /\ Forall (fun t => t - start_time < MONITOR_MS) (times delta)
     end
  /\ Forall (fun ms => ms = POLL_MS) (sleeps delta)
  /\ clock w <= clock w'
  /\ clock w' <= Z.max (clock w)
                       (start_time + MONITOR_MS + read_timeout w + POLL_MS - 1)
  /\ (exists k, script w' = skipn k (script w))
  /\ (Forall no_fault (script w) -> exists u, r = Ok u)
  /\ (Forall no_bytes (script w) -> rx w = [] ->
      rx w' = [] /\ chunks delta = []).

Definition ending_failures (en : ending) : list exn :=
  match en with
  | Completed => []
  | OpenFailed e | PollFailed e | CloseFailed e => [e]
  end.

(** What a whole run leaves behind, for each way it can end. *)
Definition run_post (t0 : Z) (sc : list event) (code : Z) (w : world)
                    (en : ending) : Prop :=
  let tr := trace w in
  stdout w = expected_stdout tr
  /\ code = expected_status tr
  /\ failures tr = ending_failures en
  /\ opened tr = match en with OpenFailed _ => false | _ => true end
  /\ open_failed tr = match en with OpenFailed _ => true | _ => false end
  /\ poll_failed tr = match en with PollFailed _ => true | _ => false end
  /\ close_attempted tr
     = match en with Completed | CloseFailed _ => true | _ => false end
  /\ close_failed tr = match en with CloseFailed _ => true | _ => false end
  /\ port_open w
     = match en with PollFailed _ | CloseFailed _ => true | _ => false end
  /\ Forall (fun ms => ms = POLL_MS) (sleeps tr)
  /\ t0 <= clock w
  /\ clock w - t0 < MONITOR_MS + POLL_MS + ms_of_seconds READ_TIMEOUT
  /\ match en with
     | Completed | CloseFailed _ =>
       MONITOR_MS <= clock w - t0
       /\ exists early,
           times tr = t0 :: early ++ [clock w]
           /\ Forall (fun t => t - t0 < MONITOR_MS) early
           /\ length (sleeps tr) = length early
     | OpenFailed _ => times tr = [] /\ chunks tr = []
     | PollFailed _ =>
       exists early,
         times tr = t0 :: early
         /\ Forall (fun t => t - t0 < MONITOR_MS) early
     end
  /\ (Forall no_fault sc -> en = Completed)
  /\ (Forall no_bytes sc -> chunks tr = []).

(** Standard output for each way a run can end. *)
Definition ending_stdout (en : ending) (tr : list call) : pystr :=
  match en with
  | Completed => header ++ device_text tr ++ footer
  | OpenFailed e => error_line e
  | PollFailed e => header ++ device_text tr ++ error_line e
  | CloseFailed e => header ++ device_text tr ++ footer ++ error_line e
  end.

(** Scripts of the device for concrete runs. *)
Definition ev_bytes (data : bytes) : event :=
  {| arrived := data; delay := 0; fault := None |}.
Definition ev_fail (msg : string) : event :=
  {| arrived := []; delay := 0; fault := Some (lit msg) |}.

(** The port opens, one byte is seen, and the read that follows fails. *)
Definition unplugged_script : list event :=
  [quiet; ev_bytes [x41]; quiet; ev_fail "device disconnected"].

(** Two bytes are read and printed, then the next poll fails. *)
Definition late_failure_script : list event :=
  [quiet; ev_bytes [x41; x42]; quiet; quiet; ev_fail "device disconnected"].

(** The port opens and nothing ever arrives: what the header and footer
    would be if a separator came first. *)
Definition separator_first_output : pystr :=
  separator ++ newline ++ status_line ++ newline ++ separator ++ newline
  ++ newline ++ separator ++ newline ++ complete_line ++ newline.

(** The two bytes of U+00E9, found by two successive polls. *)
Definition split_char_script : list event :=
  [quiet; ev_bytes [xc3]; quiet; quiet; ev_bytes [xa9]; quiet; quiet].

(** The byte 0xFF followed by "OK\n". *)
Definition garbage_then_ok : bytes := [xff; x4f; x4b; x0a].

(** The same run at another time of day, with a slower driver. *)
Definition one_byte_script : list event := [quiet; ev_bytes [x41]].
Definition one_byte_script_slow : list event :=
  [ {| arrived := []; delay := 5; fault := None |};
    {| arrived := [x41]; delay := 9; fault := None |} ].

(** The event that the [k]-th driver call from now will meet. *)
Definition nth_event (k : nat) (w : world) : event := nth k (script w) quiet.

(** One character in a first chunk, a two-byte character in a second. *)
Definition two_chunk_script : list event :=
  [quiet; ev_bytes [x41]; quiet; quiet; ev_bytes [xc3; xa9]; quiet; quiet].

(** The world after [time.time()] has been read. *)
Definition tick (w : world) : world :=
  {| clock := clock w; stdout := stdout w; rx := rx w;
     port_open := port_open w; read_timeout := read_timeout w;
     script := script w; trace := trace w ++ [CTime (clock w)] |}.

(** A Unicode scalar value: a code point that is not a surrogate. *)
Definition scalar_value (c : Z) : Prop :=
  0 <= c <= 0x10FFFF /\ ~ (0xD800 <= c <= 0xDFFF).

Definition scalar_item (it : utf8_item) : Prop :=
  match it with
  | Char c _ => scalar_value c
  | Malformed _ _ _ => True
  end.

(** The port opens, a hundred polls find nothing, and close fails. *)
Definition close_fails_script : list event :=
  repeat quiet 101 ++ [ev_fail "port busy"].

(** ** A device that sends between the rounds

    The bytes of [arrivals] reach the driver one element per round of the
    loop, each time before the round looks at the receive buffer: the
    first [in_waiting] of the round finds them, and nothing arrives
    during the other calls.  A round that finds bytes makes three driver
    calls, a round that finds none makes one. *)
Definition round_events (a : bytes) : list event :=
  match a with
  | [] => [quiet]
  | _ :: _ => [ev_bytes a; quiet; quiet]
  end.

Definition paced_script (arrivals : list bytes) : list event :=
  quiet :: flat_map round_events arrivals.

Definition nonempty (a : bytes) : bool :=
  match a with
  | [] => false
  | _ :: _ => true
  end.

(** The rounds of the loop that a run completed. *)
Definition rounds (w : world) : nat := length (sleeps (trace w)).

(** Where a run started at [t0] is after [rounds w] rounds of a paced
    script. *)
Definition paced (t0 : Z) (arrivals : list bytes) (w : world) : Prop :=
  script w = flat_map round_events (skipn (rounds w) arrivals)
  /\ rx w = []
  /\ chunks (trace w) = filter nonempty (firstn (rounds w) arrivals)
  /\ clock w <= t0 + POLL_MS * Z.of_nat (rounds w).

Definition ascii_bytes (a : bytes) : Prop :=
  Forall (fun b => is_ascii (byte_val b) = true) a.

(** Three rounds: a word, nothing, a word with a stray byte. *)
Definition paced_arrivals : list bytes :=
  [[x68; x69]; []; [xff; x4f; x4b]].

(** ** Text on the wire

    A device that sends text sends the UTF-8 encoding of its characters
    (RFC 3629): one to four bytes for each Unicode scalar value. *)

Definition byte_of (z : Z) : byte :=
  match Byte.of_N (Z.to_N z) with
  | Some b => b
  | None => x00
  end.

Definition utf8_encode (c : Z) : bytes :=
  if c <? 0x80 then [byte_of c]
  else if c <? 0x800 then
    [byte_of (0xC0 + c / 64); byte_of (0x80 + c mod 64)]
  else if c <? 0x10000 then
    [byte_of (0xE0 + c / 4096); byte_of (0x80 + (c / 64) mod 64);
     byte_of (0x80 + c mod 64)]
  else
    [byte_of (0xF0 + c / 262144); byte_of (0x80 + (c / 4096) mod 64);
     byte_of (0x80 + (c / 64) mod 64); byte_of (0x80 + c mod 64)].

(** A byte that no UTF-8 encoding starts with: a continuation byte
    (0x80-0xBF), 0xC0, 0xC1 or 0xF5-0xFF. *)
Definition junk_byte (b : byte) : bool :=
  (0x80 <=? byte_val b) && ((byte_val b <? 0xC2) || (0xF5 <=? byte_val b)).

(** What a device sends: characters, with stray bytes between them. *)
Inductive piece :=
| Text (c : Z)
| Junk (b : byte).

Definition piece_bytes (p : piece) : bytes :=
  match p with
  | Text c => utf8_encode c
  | Junk b => [b]
  end.

Definition piece_text (p : piece) : pystr :=
  match p with
  | Text c => [c]
  | Junk _ => []
  end.

Definition well_formed_piece (p : piece) : Prop :=
  match p with
  | Text c => scalar_value c
  | Junk b => junk_byte b = true
  end.

(** The port opens and the first poll finds 0xFF, "OK" and a newline. *)
Definition garbage_script : list event := [quiet; ev_bytes garbage_then_ok].

(** A stray 0xFF, the letter O, a euro sign (three bytes), an emoji (four
    bytes), a stray continuation byte and a newline. *)
Definition mixed_pieces : list piece :=
  [Junk xff; Text 0x4F; Text 0x20AC; Text 0x1F600; Junk x80; Text 10].

(** ** The process around the script

    The definitions above follow the statements of the script while
    standard output takes everything written to it and nothing interrupts
    the process.  The module below runs the same statements in a process
    where that is not granted: at every call the process makes, the
    environment can leave it alone, deliver SIGINT (Python then raises
    [KeyboardInterrupt], which is not an [Exception]), or make standard
    output refuse the text (a write or flush then raises an [Exception]
    such as [OSError] or [UnicodeEncodeError]).  After the script the
    interpreter shuts down: it flushes standard output, which sets the
    exit status to 120 when it fails, and it finalizes the objects that
    are left; the finalizer of [io.RawIOBase], which [serial.Serial]
    inherits, calls [close()] on a port that is still open and ignores
    an exception raised there. *)

(** The finalizer of the [Serial] object. *)
Definition finalizer (b : world) : world :=
  if port_open b then
    match ser_close b with
    | Some (_, b') => b'
    | None => b
    end
  else b.

Definition is_close_ok (c : call) : bool :=
  match c with CClose (Ok _) => true | _ => false end.

(** The driver raises [SerialException] and nothing else. *)
Definition is_serial (e : exn) : Prop := exists msg, e = SerialException msg.

(** What one call of the script does to the world: it logs one call [c],
    which failed exactly if the call raised, and then with a
    [SerialException]; only an open or a close changes the state of the
    port; the clock does not go back. *)
Definition one_call {A} (b : world) (r : result A) (b' : world)
                    (c : call) : Prop :=
  trace b' = trace b ++ [c]
  /\ failure_of c = match r with Ok _ => [] | Raise e => [e] end
  /\ Forall is_serial (failure_of c)
  /\ port_open b'
     = (if is_open_ok c then true
        else if is_close_ok c then false else port_open b)
  /\ (0 <= read_timeout b -> 0 <= read_timeout b' /\ clock b <= clock b').

(** A statement that is one call, of a kind [G]. *)
Definition plain {A} (G : call -> Prop)
           (m : world -> option (result A * world)) : Prop :=
  forall b, exists r b' c, m b = Some (r, b') /\ one_call b r b' c /\ G c.

(** The calls that do not close the port. *)
Definition keeps_port (c : call) : Prop := is_close_ok c = false.

(** A port that was opened is still open. *)
Definition live (b : world) : Prop :=
  (opened (trace b) = true -> port_open b = true)
  /\ 0 <= read_timeout b.

Module Process.

(** What the environment does to the process at one of its calls. *)
Inductive hazard :=
| Calm
| Interrupt
| StdoutError (msg : pystr).

(** The exceptions of class [Exception] that a statement can raise. *)
Inductive error :=
| Base (e : exn)
| StdoutFailure (msg : pystr).

Definition str_error (e : error) : pystr :=
  match e with
  | Base e => str_exn e
  | StdoutFailure msg => msg
  end.

Inductive outcome (A : Type) :=
| Done (a : A)
| Raised (e : error)
| Interrupted.
Arguments Done {A} a.
Arguments Raised {A} e.
Arguments Interrupted {A}.

(** What went wrong outside the driver, in order. *)
Inductive mishap :=
| KeyboardInterrupt
| StdoutBroken (msg : pystr)
| ExitFlushFailed.

Record state := {
  base : world;
  hazards : list hazard;
  mishaps : list mishap
}.

Definition M (A : Type) : Type := state -> option (outcome A * state).

Definition ret {A} (a : A) : M A := fun s => Some (Done a, s).

Definition bind {A B} (m : M A) (k : A -> M B) : M B :=
  fun s =>
    match m s with
    | None => None
    | Some (Done a, s') => k a s'
    | Some (Raised e, s') => Some (Raised e, s')
    | Some (Interrupted, s') => Some (Interrupted, s')
    end.

Declare Scope process_scope.
Notation "x <- m ;; k" := (bind m (fun x => k))
  (at level 61, m at next level, right associativity) : process_scope.
Notation "m ;; k" := (bind m (fun _ => k))
  (at level 61, right associativity) : process_scope.
Local Open Scope process_scope.

Definition next_hazard (s : state) : hazard := hd Calm (hazards s).

(** A call that goes through. *)
Definition settle {A} (s : state) (x : option (result A * world))
  : option (outcome A * state) :=
  match x with
  | None => None
  | Some (Ok a, b) =>
    Some (Done a, {| base := b; hazards := tl (hazards s);
                     mishaps := mishaps s |})
  | Some (Raise e, b) =>
    Some (Raised (Base e), {| base := b; hazards := tl (hazards s);
                              mishaps := mishaps s |})
  end.

(** A call of the script in the process; [writes] says whether the call
    writes to standard output. *)
Definition call {A} (writes : bool)
           (m : world -> option (result A * world)) : M A :=
  fun s =>
    match next_hazard s with
    | Calm => settle s (m (base s))
    | Interrupt =>
      Some (Interrupted,
            {| base := base s; hazards := tl (hazards s);
               mishaps := mishaps s ++ [KeyboardInterrupt] |})
    | StdoutError msg =>
      if writes
      then Some (Raised (StdoutFailure msg),
                 {| base := base s; hazards := tl (hazards s);
                    mishaps := mishaps s ++ [StdoutBroken msg] |})
      else settle s (m (base s))
    end.

Definition Serial (port : string) (baudrate : Z) (timeout : Z) : M unit :=
  call false (Serial port baudrate timeout).
Definition ser_in_waiting : M nat := call false ser_in_waiting.
Definition ser_read (size : nat) : M bytes := call false (ser_read size).
Definition ser_close : M unit := call false ser_close.
Definition time_time : M Z := call false time_time.
Definition time_sleep (ms : Z) : M unit := call false (time_sleep ms).
Definition print (s : pystr) (e : pystr) : M unit := call true (print s e).
Definition stdout_flush : M unit := call true stdout_flush.

Definition decode (errors : error_handler) (raw : bytes) : M pystr :=
  fun s =>
    Some (match decode_utf8 errors raw with
          | Ok text => Done text
          | Raise e => Raised (Base e)
          end, s).

(** The body of the [while] loop. *)
Definition poll_once : M unit :=
  n <- ser_in_waiting ;;
  (if (0 <? n)%nat then
     size <- ser_in_waiting ;;
     raw <- ser_read size ;;
     data <- decode ignore raw ;;
     print data [] ;;
     stdout_flush
   else ret tt) ;;
  time_sleep POLL_MS.

(** [while time.time() - start_time < 10: ...]. *)
Fixpoint poll_loop (fuel : nat) (start_time : Z) : M unit :=
  match fuel with
  | O => fun _ => None
  | S fuel' =>
    now <- time_time ;;
    if now - start_time <? MONITOR_MS
    then poll_once ;; poll_loop fuel' start_time
    else ret tt
  end.

(** The [try] block. *)
Definition try_block (fuel : nat) : M unit :=
  Serial DEVICE BAUDRATE READ_TIMEOUT ;;
  print status_line newline ;;
  print separator newline ;;
  start_time <- time_time ;;
  poll_loop fuel start_time ;;
  print (newline ++ separator) newline ;;
  print complete_line newline ;;
  ser_close.

(** How the script is left. *)
Inductive leaving :=
| Normal
| SysExit (code : Z)
| Uncaught (e : error)
| Killed.

(** The [try] block and its handler.  [except Exception] catches an
    [Exception] and nothing else: a [KeyboardInterrupt] goes through
    it.  An exception raised by the handler's own [print] is caught by
    nobody. *)
Definition monitor_serial (fuel : nat) (s : state)
  : option (leaving * state) :=
  match try_block fuel s with
  | None => None
  | Some (Done _, s') => Some (Normal, s')
  | Some (Interrupted, s') => Some (Killed, s')
  | Some (Raised e, s') =>
    match print (lit "Error: " ++ str_error e) newline s' with
    | None => None
    | Some (Done _, s'') => Some (SysExit 1, s'')
    | Some (Raised e', s'') => Some (Uncaught e', s'')
    | Some (Interrupted, s'') => Some (Killed, s'')
    end
  end.

(** The flush of standard output when the interpreter shuts down. *)
Definition flush_at_exit (s : state) : bool * state :=
  match next_hazard s with
  | StdoutError _ =>
    (false, {| base := base s; hazards := tl (hazards s);
               mishaps := mishaps s ++ [ExitFlushFailed] |})
  | _ =>
    (true, {| base := base s; hazards := tl (hazards s);
              mishaps := mishaps s |})
  end.

(** The exit status: an unhandled [KeyboardInterrupt] ends the process
    by SIGINT (status 130); a failed flush at exit replaces any other
    status by 120; an uncaught exception gives 1. *)
Definition exit_status (how : leaving) (flushed : bool) : Z :=
  match how with
  | Killed => 130
  | Normal => if flushed then 0 else 120
  | SysExit code => if flushed then code else 120
  | Uncaught _ => if flushed then 1 else 120
  end.

(** The whole process: the script, then the shutdown of the
    interpreter. *)
Definition process (fuel : nat) (s : state) : option (Z * state) :=
  match monitor_serial fuel s with
  | None => None
  | Some (how, s1) =>
    let (flushed, s2) := flush_at_exit s1 in
    Some (exit_status how flushed,
          {| base := finalizer (base s2); hazards := hazards s2;
             mishaps := mishaps s2 |})
  end.

Definition start (t0 : Z) (sc : list event) (hz : list hazard) : state :=
  {| base := boot t0 sc; hazards := hz; mishaps := [] |}.

Definition run (t0 : Z) (sc : list event) (hz : list hazard)
  : option (Z * state) :=
  process FUEL (start t0 sc hz).

(** The exit status, read off what happened. *)
Definition is_interrupt (m : mishap) : bool :=
  match m with KeyboardInterrupt => true | _ => false end.
Definition is_exit_flush (m : mishap) : bool :=
  match m with ExitFlushFailed => true | _ => false end.
Definition is_write_failure (m : mishap) : bool :=
  match m with StdoutBroken _ => true | _ => false end.

Definition expected_exit (s : state) : Z :=
  if existsb is_interrupt (mishaps s) then 130
  else if existsb is_exit_flush (mishaps s) then 120
  else if existsb is_write_failure (mishaps s) then 1
  else match failures (trace (base s)) with
       | [] => 0
       | _ :: _ => 1
       end.

(** Nothing interrupts the process and standard output takes
    everything. *)
Definition calm (s : state) : Prop :=
  Forall (fun h => h = Calm) (hazards s).

Definition inj {A} (r : result A) : outcome A :=
  match r with
  | Ok a => Done a
  | Raise e => Raised (Base e)
  end.

(** Nothing has gone wrong so far. *)
Definition clean (s : state) : Prop :=
  failures (trace (base s)) = [] /\ mishaps s = [].

(** What holds after a statement, by the way it ended: when it did not
    complete, the port is as it was, and one thing has gone wrong. *)
Definition settled {A} (r : outcome A) (s : state) : Prop :=
  match r with
  | Done _ => clean s
  | Raised (Base e) =>
    live (base s)
    /\ mishaps s = []
    /\ is_serial e
    /\ exists dl c,
        device_log (trace (base s)) = dl ++ [c]
        /\ failure_of c = [e] /\ failures dl = []
  | Raised (StdoutFailure msg) =>
    live (base s)
    /\ failures (trace (base s)) = [] /\ mishaps s = [StdoutBroken msg]
  | Interrupted =>
    live (base s)
    /\ failures (trace (base s)) = [] /\ mishaps s = [KeyboardInterrupt]
  end.

(** A statement started in a world where [pre] holds ends, and when
    it completes [post] holds. *)
Definition triple {A} (pre : world -> Prop) (m : M A)
           (post : A -> world -> Prop) : Prop :=
  forall s,
    live (base s) -> clean s -> pre (base s) ->
    exists r s',
      m s = Some (r, s')
      /\ settled r s'
      /\ match r with
         | Done a => post a (base s')
         | _ => True
         end.

(** A statement of the process does what a statement of the script
    does, as long as the process is left alone. *)
Definition mirrors {A} (mp : M A)
           (m : world -> option (result A * world)) : Prop :=
  forall s,
    calm s ->
    match m (base s) with
    | None => mp s = None
    | Some (r, b) =>
      exists s', mp s = Some (inj r, s')
                 /\ base s' = b /\ calm s' /\ mishaps s' = mishaps s
    end.

End Process.

(** The last three calls of a try block that completes: the two lines of
    the footer and the close. *)
Definition closing_calls : list call :=
  [CWrite ((newline ++ separator) ++ newline);
   CWrite (complete_line ++ newline);
   CClose (Ok tt)].

(** A try block that completed, in a process started at [t0]. *)
Definition finished (t0 : Z) (b : world) : Prop :=
  port_open b = false
  /\ MONITOR_MS <= clock b - t0
  /\ exists tr, trace b = tr ++ closing_calls.

(** At most one driver call has failed, the last one. *)
Definition failure_shape (s : Process.state) : Prop :=
  failures (trace (Process.base s)) = []
  \/ exists dl c e,
      device_log (trace (Process.base s)) = dl ++ [c]
      /\ failure_of c = [e] /\ failures dl = [] /\ is_serial e.

(** What is known when the script is left, by the way it is left. *)
Definition leaving_facts (t0 : Z) (how : Process.leaving)
           (s : Process.state) : Prop :=
  match how with
  | Process.Normal => Process.clean s /\ finished t0 (Process.base s)
  | Process.SysExit code =>
    live (Process.base s)
    /\ code = 1
    /\ existsb Process.is_interrupt (Process.mishaps s) = false
    /\ (existsb Process.is_write_failure (Process.mishaps s) = true
        \/ failures (trace (Process.base s)) <> [])
  | Process.Uncaught _ =>
    live (Process.base s)
    /\ existsb Process.is_interrupt (Process.mishaps s) = false
    /\ existsb Process.is_write_failure (Process.mishaps s) = true
  | Process.Killed =>
    live (Process.base s)
    /\ existsb Process.is_interrupt (Process.mishaps s) = true
  end.

(** What is known when the process has exited with [status]. *)
Definition exit_facts (t0 : Z) (status : Z) (s : Process.state) : Prop :=
  let b := Process.base s in
  let tr := trace b in
  (opened tr = true -> exists dl r, device_log tr = dl ++ [CClose r])
  /\ (port_open b = false \/ close_failed tr = true)
  /\ status = Process.expected_exit s
  /\ (status = 0 ->
      Process.mishaps s = [] /\ failures tr = [] /\ finished t0 b)
  /\ Forall is_serial (failures tr)
  /\ (failures tr <> [] ->
      exists dl c fin,
        device_log tr = dl ++ [c] ++ fin
        /\ failures dl = []
        /\ failure_of c <> []
        /\ (fin = [] \/ exists r, fin = [CClose r])).

(** SIGINT arrives while the script sleeps for the first time. *)
Definition interrupted_hazards : list Process.hazard :=
  repeat Process.Calm 6 ++ [Process.Interrupt].

(** A silent run makes 308 calls; then the flush at exit fails. *)
Definition unflushable_hazards : list Process.hazard :=
  repeat Process.Calm 308
  ++ [Process.StdoutError (lit "No space left on device")].

(** * Properties of the codec *)

Lemma utf8_collect_ignore (items : list utf8_item) :
  forall pos, utf8_collect ignore pos items = Ok (kept items).
Proof.
  induction items as [|[c n|reason first n] rest IH]; intros pos; simpl.
  - reflexivity.
  - now rewrite IH.
  - apply IH.
Qed.

Lemma decode_ignore (data : bytes) :
  decode_utf8 ignore data = Ok (lenient data).
Proof. apply utf8_collect_ignore. Qed.

(** The other handlers, on the bytes 0xFF 'O' 'K' '\n': [strict] raises,
    [replace] puts U+FFFD where [ignore] puts nothing. *)
Example strict_rejects_garbage :
  decode_utf8 strict garbage_then_ok
  = Raise (UnicodeDecodeError 0xFF 0 1 InvalidStart)
  /\ str_exn (UnicodeDecodeError 0xFF 0 1 InvalidStart)
     = lit "'utf-8' codec can't decode byte 0xff in position 0: invalid start byte".
Proof. split; reflexivity. Qed.

Example replace_marks_garbage :
  decode_utf8 replace garbage_then_ok = Ok (0xFFFD :: lit "OK" ++ newline).
Proof. reflexivity. Qed.

Example truncated_sequence_message :
  decode_utf8 strict [x41; xe2; x82]
  = Raise (UnicodeDecodeError 0xE2 1 3 UnexpectedEnd)
  /\ str_exn (UnicodeDecodeError 0xE2 1 3 UnexpectedEnd)
     = lit "'utf-8' codec can't decode bytes in position 1-2: unexpected end of data".
Proof. split; reflexivity. Qed.

Lemma kept_app (xs ys : list utf8_item) :
  kept (xs ++ ys) = kept xs ++ kept ys.
Proof.
  induction xs as [|[c n|reason first n] xs IH]; simpl; congruence.
Qed.

(** Induction on byte strings where the hypothesis is available for every
    shorter string, as the scanner consumes up to four bytes at a time. *)
Lemma bytes_length_ind (P : bytes -> Prop) :
  (forall s, (forall s', (length s' < length s)%nat -> P s') -> P s) ->
  forall s, P s.
Proof.
  intros step s.
  enough (H : forall n s', (length s' < n)%nat -> P s') by (apply step; intros; eapply H; eauto).
  induction n as [|n IH]; intros s' Hlt; [lia|].
  apply step. intros s'' Hlt'. apply IH. lia.
Qed.

Ltac scan_case :=
  match goal with
  | |- context [if ?b then _ else _] => destruct b eqn:?
  | H : context [if ?b then _ else _] |- _ => destruct b eqn:?
  | |- context [match ?s with [] => _ | _ :: _ => _ end] =>
    is_var s; destruct s
  | H : context [match ?s with [] => _ | _ :: _ => _ end] |- _ =>
    is_var s; destruct s
  end.

(** A chunk that does not stop inside a multi-byte sequence is scanned the
    same way whatever follows it. *)
Lemma utf8_scan_app (a b : bytes) :
  cut_short a = false ->
  utf8_scan (a ++ b) = utf8_scan a ++ utf8_scan b.
Proof.
  unfold cut_short.
  induction a as [a IH] using bytes_length_ind.
  destruct a as [|c1 s1]; intros Hc; [reflexivity|].
  rewrite <- app_comm_cons. cbn [utf8_scan] in Hc |- *.
  repeat (scan_case; cbn [app existsb is_unexpected_end orb] in *;
          try discriminate);
    (f_equal;
     match goal with
     | |- utf8_scan _ = utf8_scan ?s ++ _ =>
       apply (IH s); [cbn [length]; lia | assumption]
     end).
Qed.

Lemma lenient_app (a b : bytes) :
  cut_short a = false -> lenient (a ++ b) = lenient a ++ lenient b.
Proof.
  intros Ha. unfold lenient. now rewrite utf8_scan_app, kept_app.
Qed.

(** Decoding chunk by chunk agrees with decoding the whole, as long as no
    chunk but the last stops inside a multi-byte sequence. *)
Lemma lenient_concat (chunks : list bytes) :
  Forall (fun c => cut_short c = false) (removelast chunks) ->
  lenient (concat chunks) = concat (map lenient chunks).
Proof.
  induction chunks as [|c rest IH]; intros Hall; [reflexivity|].
  destruct rest as [|c' rest].
  - simpl. now rewrite !app_nil_r.
  - change (removelast (c :: c' :: rest)) with (c :: removelast (c' :: rest)) in Hall.
    inversion Hall as [|? ? Hc Hrest]; subst.
    change (concat (c :: c' :: rest)) with (c ++ concat (c' :: rest)).
    change (map lenient (c :: c' :: rest)) with (lenient c :: map lenient (c' :: rest)).
    rewrite lenient_app by assumption.
    rewrite IH by assumption. reflexivity.
Qed.

Ltac bool_facts :=
  unfold is_ascii, is_continuation in *;
  repeat match goal with
         | H : negb _ = true |- _ => apply negb_true_iff in H
         | H : negb _ = false |- _ => apply negb_false_iff in H
         | H : _ || _ = false |- _ => apply orb_false_iff in H; destruct H
         | H : _ && _ = true |- _ => apply andb_true_iff in H; destruct H
         | H : (_ <? _) = true |- _ => apply Z.ltb_lt in H
         | H : (_ <? _) = false |- _ => apply Z.ltb_ge in H
         | H : (_ <=? _) = true |- _ => apply Z.leb_le in H
         | H : (_ <=? _) = false |- _ => apply Z.leb_gt in H
         | H : (_ =? _) = true |- _ => apply Z.eqb_eq in H
         | H : (_ =? _) = false |- _ => apply Z.eqb_neq in H
         | H : (if ?b then _ else _) = false |- _ => destruct b eqn:?
         end.

Lemma byte_val_range (b : byte) : 0 <= byte_val b < 256.
Proof.
  unfold byte_val. pose proof (Byte.to_N_bounded b) as H. lia.
Qed.

(** Lenient decoding only ever drops bytes of malformed multi-byte
    sequences: the ASCII characters of the input all come through, each
    once and in order. *)
Lemma lenient_keeps_ascii (s : bytes) :
  filter is_ascii (lenient s)
  = map byte_val (filter (fun b => is_ascii (byte_val b)) s).
Proof.
  unfold lenient.
  induction s as [s IH] using bytes_length_ind.
  destruct s as [|c1 s1]; [reflexivity|].
  cbn [utf8_scan].
  repeat scan_case;
    cbn [kept filter map]; bool_facts;
    rewrite ?Z.shiftl_mul_pow2 by lia;
    repeat match goal with
           | |- context [if ?x <? 128 then _ else _] =>
             destruct (Z.ltb_spec x 128); [try lia|try lia]
           end;
    cbn [map]; try reflexivity;
    try (f_equal; []);
    try (match goal with
         | |- filter _ (kept (utf8_scan ?t)) = _ =>
           rewrite (IH t) by (cbn [length]; lia)
         end;
         cbn [filter map]; unfold is_ascii;
         repeat match goal with
                | |- context [if ?x <? 128 then _ else _] =>
                  destruct (Z.ltb_spec x 128); [try lia|try lia]
                end;
         cbn [map]; reflexivity).
Qed.

(** * The statements of the script *)

Lemma Forall_skipn {A} (P : A -> Prop) (k : nat) (l : list A) :
  Forall P l -> Forall P (skipn k l).
Proof.
  revert l. induction k as [|k IH]; intros l H; [exact H|].
  destruct l as [|x l]; [constructor|]. inversion H; subst. now apply IH.
Qed.

Lemma next_event_no_fault (w : world) :
  Forall no_fault (script w) -> fault (next_event w) = None.
Proof.
  unfold next_event. destruct (script w); intros H; [reflexivity|].
  now inversion H.
Qed.

Lemma next_event_no_bytes (w : world) :
  Forall no_bytes (script w) -> arrived (next_event w) = [].
Proof.
  unfold next_event. destruct (script w); intros H; [reflexivity|].
  now inversion H.
Qed.

Ltac forall_inv :=
  repeat match goal with
         | H : Forall _ (_ :: _) |- _ => inversion H; clear H; subst
         end.

Ltac poll_goal :=
  match goal with
  | |- _ = _ ++ ?d => is_evar d; rewrite <- ?app_assoc; reflexivity
  | |- exists k : nat, _ = skipn k _ =>
    first [ exists 1%nat; reflexivity | exists 2%nat; reflexivity
          | exists 3%nat; reflexivity ]
  | |- Forall no_fault _ -> _ =>
    intros; forall_inv; unfold no_fault in *; cbn in *;
    first [ congruence | eexists; reflexivity ]
  | |- Forall no_bytes _ -> _ =>
    intros; forall_inv; unfold no_bytes in *; subst;
    repeat match goal with
           | H : arrived _ = [] |- _ => rewrite H in *
           end;
    cbn in *; first [ discriminate | split; reflexivity ]
  | |- _ <= _ -> _ => unfold POLL_MS; cbn; intros; lia
  | |- _ => cbn; rewrite ?app_nil_r, <- ?app_assoc; reflexivity
  end.

Lemma poll_once_spec (w : world) :
  exists r w' delta, poll_once w = Some (r, w') /\ poll_step w r w' delta.
Proof.
  unfold poll_once, bind, ser_in_waiting, ser_read, lift_result, print,
    stdout_flush, time_sleep, ret, write, next_event.
  destruct w as [clk out buf po rt sc tr]; cbn [script rx fault].
  destruct sc as [|e1 [|e2 [|e3 rest]]]; cbn -[Nat.ltb decode_utf8];
    repeat match goal with
           | |- context [fault ?e] => destruct (fault e) eqn:?
           | |- context [(0 <? ?n)%nat] => destruct (0 <? n)%nat eqn:?
           end;
    try (cbn in *; discriminate);
    cbn -[Nat.ltb decode_utf8]; rewrite ?decode_ignore; cbn -[Nat.ltb decode_utf8];
    (do 3 eexists; split; [reflexivity|]);
    unfold poll_step; cbn; repeat apply conj; poll_goal.
Qed.

(** The functions on traces distribute over concatenation. *)
Lemma failures_app a b : failures (a ++ b) = failures a ++ failures b.
Proof. apply flat_map_app. Qed.
Lemma chunks_app a b : chunks (a ++ b) = chunks a ++ chunks b.
Proof. apply flat_map_app. Qed.
Lemma times_app a b : times (a ++ b) = times a ++ times b.
Proof. apply flat_map_app. Qed.
Lemma sleeps_app a b : sleeps (a ++ b) = sleeps a ++ sleeps b.
Proof. apply flat_map_app. Qed.
Lemma opened_app a b : opened (a ++ b) = opened a || opened b.
Proof. apply existsb_app. Qed.
Lemma open_failed_app a b : open_failed (a ++ b) = open_failed a || open_failed b.
Proof. apply existsb_app. Qed.
Lemma poll_failed_app a b : poll_failed (a ++ b) = poll_failed a || poll_failed b.
Proof. apply existsb_app. Qed.
Lemma close_attempted_app a b :
  close_attempted (a ++ b) = close_attempted a || close_attempted b.
Proof. apply existsb_app. Qed.
Lemma close_failed_app a b : close_failed (a ++ b) = close_failed a || close_failed b.
Proof. apply existsb_app. Qed.
Lemma device_text_app a b : device_text (a ++ b) = device_text a ++ device_text b.
Proof. unfold device_text. now rewrite chunks_app, map_app, concat_app. Qed.
Lemma device_log_app a b : device_log (a ++ b) = device_log a ++ device_log b.
Proof. apply filter_app. Qed.

Ltac trace_norm :=
  rewrite ?failures_app, ?chunks_app, ?times_app, ?sleeps_app, ?opened_app,
    ?open_failed_app, ?poll_failed_app, ?close_attempted_app,
    ?close_failed_app, ?device_text_app, ?device_log_app.

Lemma skipn_skipn_script {A} (j k : nat) (l : list A) :
  skipn j (skipn k l) = skipn (k + j) l.
Proof.
  revert l. induction k as [|k IH]; intros l; [reflexivity|].
  destruct l as [|x l]; [now rewrite !skipn_nil|]. apply IH.
Qed.

Ltac use_eqs :=
  repeat match goal with
         | H : _ = false |- _ => rewrite H
         | H : _ = true |- _ => rewrite H
         | H : _ = [] |- _ => rewrite H
         | H : _ = [_] |- _ => rewrite H
         end.

Lemma poll_loop_spec (fuel : nat) (start_time : Z) :
  forall w,
    0 <= read_timeout w ->
    (1 <= fuel)%nat ->
    start_time + MONITOR_MS - clock w + POLL_MS <= POLL_MS * Z.of_nat fuel ->
    exists r w' delta,
      poll_loop fuel start_time w = Some (r, w')
      /\ loop_post start_time w r w' delta.
Proof.
  induction fuel as [|fuel IH]; intros w Hrt Hfuel Hclock; [lia|].
  cbn [poll_loop]. unfold bind at 1. unfold time_time at 1.
  destruct (clock w - start_time <? MONITOR_MS) eqn:Hguard.
  - apply Z.ltb_lt in Hguard.
    unfold bind at 1.
    match goal with
    | |- context [poll_once ?w1] =>
      destruct (poll_once_spec w1) as (r1 & w1' & d1 & E1 & S1)
    end.
    rewrite E1. unfold poll_step in S1; cbn in S1.
    destruct S1 as (St & So & Sp & Srt & Sop & Sof & Sca & Scf & Sti & Sr
                    & Sclk & (k1 & Ssc) & Snf & Snb).
    specialize (Sclk Hrt).
    destruct r1 as [[]|e].
    + (* the round completes and the loop goes on *)
      destruct Sr as (Sfa & Spf & Ssl).
      destruct (IH w1') as (r & w' & d & E & L).
      { lia. }
      { unfold POLL_MS, MONITOR_MS, ms_of_seconds in *. lia. }
      { unfold POLL_MS, MONITOR_MS, ms_of_seconds in *. lia. }
      rewrite E. exists r, w', ([CTime (clock w)] ++ d1 ++ d).
      split; [reflexivity|].
      destruct L as (Lt & Lo & Lp & Lrt & Lop & Lof & Lca & Lcf & Lr & Lsl
                     & Lc1 & Lc2 & (k2 & Lsc) & Lnf & Lnb).
      unfold loop_post. repeat apply conj.
      * rewrite Lt, St, <- !app_assoc. reflexivity.
      * rewrite Lo, So. trace_norm. cbn. now rewrite app_assoc.
      * congruence.
      * congruence.
      * trace_norm. now use_eqs.
      * trace_norm. now use_eqs.
      * trace_norm. now use_eqs.
      * trace_norm. now use_eqs.
      * destruct r as [u|e].
        -- destruct Lr as (Lfa & Lpf & Lend & early & Lti & Learly & Llen).
           repeat apply conj.
           ++ trace_norm. now use_eqs.
           ++ trace_norm. now use_eqs.
           ++ exact Lend.
           ++ exists (clock w :: early). repeat apply conj.
              ** trace_norm. rewrite Sti, Lti. reflexivity.
              ** constructor; assumption.
              ** trace_norm. rewrite Ssl. cbn. now rewrite Llen.
        -- destruct Lr as (Lfa & Lpf & Lti).
           repeat apply conj.
           ++ trace_norm. now use_eqs.
           ++ trace_norm. use_eqs. now rewrite orb_true_r.
           ++ trace_norm. rewrite Sti. cbn. constructor; assumption.
      * trace_norm. rewrite Ssl. cbn. constructor; [reflexivity|assumption].
      * unfold POLL_MS in *. lia.
      * rewrite Srt in Lc2. unfold POLL_MS in *. lia.
      * exists (k1 + k2)%nat. now rewrite Lsc, Ssc, skipn_skipn_script.
      * intros H. apply Lnf. rewrite Ssc. now apply Forall_skipn.
      * intros H Hrx. destruct (Snb H Hrx) as [Hrx1 Hch1].
        destruct Lnb as [Hrx' Hch]; [rewrite Ssc; now apply Forall_skipn|assumption|].
        split; [assumption|]. trace_norm. now rewrite Hch1, Hch.
    + (* a driver call fails: the loop is left *)
      destruct Sr as (Sfa & Spf & Ssl).
      exists (Raise e), w1', ([CTime (clock w)] ++ d1).
      split; [reflexivity|].
      unfold loop_post. repeat apply conj.
      * rewrite St, <- !app_assoc. reflexivity.
      * rewrite So. trace_norm. reflexivity.
      * assumption.
      * assumption.
      * trace_norm. now use_eqs.
      * trace_norm. now use_eqs.
      * trace_norm. now use_eqs.
      * trace_norm. now use_eqs.
      * trace_norm. now use_eqs.
      * trace_norm. now use_eqs.
      * trace_norm. rewrite Sti. cbn. constructor; [assumption|constructor].
      * trace_norm. rewrite Ssl. constructor.
      * unfold POLL_MS in *. lia.
      * unfold POLL_MS in *. lia.
      * exists k1. assumption.
      * assumption.
      * intros H Hrx. destruct (Snb H Hrx) as [Hrx1 Hch1].
        split; [assumption|]. trace_norm. now rewrite Hch1.
  - (* the deadline has passed *)
    apply Z.ltb_ge in Hguard.
    eexists (Ok tt), _, [CTime (clock w)].
    split; [reflexivity|].
    unfold loop_post; cbn. repeat apply conj; try reflexivity; try lia.
    + now rewrite app_nil_r.
    + unfold MONITOR_MS, ms_of_seconds in Hguard. lia.
    + exists []. repeat apply conj; [reflexivity|constructor|reflexivity].
    + constructor.
    + exists 0%nat. reflexivity.
    + intros _. now exists tt.
    + intros _ H. split; [exact H|reflexivity].
Qed.

(** * The whole script *)

Ltac trace_calc :=
  trace_norm;
  cbn [failures chunks times sleeps opened open_failed poll_failed
       close_attempted close_failed device_text device_log
       flat_map existsb filter failure_of chunk_of time_of sleep_of
       is_open_ok is_open_failure is_poll_failure is_close is_close_failure
       is_device_call map concat app orb].

Lemma run_spec (t0 : Z) (sc : list event) :
  exists code w en, run t0 sc = Some (code, w) /\ run_post t0 sc code w en.
Proof.
  unfold run, monitor_serial, try_block.
  unfold bind at 1. unfold Serial at 1.
  destruct (fault (next_event (boot t0 sc))) as [msg|] eqn:Hopen.
  - (* the port cannot be opened *)
    exists 1, (write (error_line (SerialException msg))
                 {| clock := t0; stdout := []; rx := []; port_open := false;
                    read_timeout := 0; script := tl sc;
                    trace := [COpen DEVICE BAUDRATE READ_TIMEOUT
                                (Raise (SerialException msg))] |}),
           (OpenFailed (SerialException msg)).
    split; [reflexivity|].
    unfold run_post. cbn -[error_line].
    repeat apply conj; try reflexivity; try lia.
    + now rewrite app_nil_r.
    + constructor.
    + intros Hnf. apply (next_event_no_fault (boot t0 sc)) in Hnf. congruence.
  - (* the port is open *)
    unfold bind at 1, print at 1. unfold bind at 1, print at 1.
    unfold bind at 1, time_time at 1. unfold bind at 1.
    cbn [clock stdout rx port_open read_timeout script trace write boot].
    match goal with
    | |- context [poll_loop FUEL t0 ?w4] =>
      destruct (poll_loop_spec FUEL t0 w4) as (r & w' & d & E & L)
    end.
    { cbn [read_timeout]. unfold ms_of_seconds, READ_TIMEOUT. lia. }
    { unfold FUEL. lia. }
    { cbn [clock]. unfold MONITOR_MS, POLL_MS, ms_of_seconds, FUEL. lia. }
    rewrite E.
    destruct L as (Lt & Lo & Lp & Lrt & Lop & Lof & Lca & Lcf & Lr & Lsl
                   & Lc1 & Lc2 & (k & Lsc) & Lnf & Lnb).
    cbn [clock stdout rx port_open read_timeout script trace] in *.
    assert (Hclk : clock w' - t0 < MONITOR_MS + POLL_MS + ms_of_seconds READ_TIMEOUT)
      by (unfold MONITOR_MS, POLL_MS, READ_TIMEOUT, ms_of_seconds in *; lia).
    assert (Htl : forall P : event -> Prop, Forall P sc -> Forall P (tl sc))
      by (intros P HP; apply (Forall_skipn P 1 sc HP)).
    destruct r as [u|e].
    + (* the loop ran to the deadline *)
      destruct Lr as (Lfa & Lpf & Lend & early & Lti & Learly & Llen).
      unfold bind at 1, print at 1. unfold bind at 1, print at 1.
      unfold ser_close.
      cbn [clock stdout rx port_open read_timeout script trace write].
      change (next_event (write (complete_line ++ newline)
                            (write ((newline ++ separator) ++ newline) w')))
        with (next_event w').
      destruct (fault (next_event w')) as [msg|] eqn:Hclose.
      * (* closing the port fails *)
        do 2 eexists. exists (CloseFailed (SerialException msg)).
        split; [reflexivity|].
        unfold run_post, expected_stdout, expected_status.
        cbn [clock stdout rx port_open read_timeout script trace write].
        rewrite Lt, Lo, Lp. trace_calc. use_eqs. trace_calc.
        rewrite ?app_nil_r.
        repeat apply conj; try reflexivity; try assumption.
        -- unfold header, footer, error_line.
           rewrite <- !app_assoc. reflexivity.
        -- exists early. repeat apply conj; [now rewrite Lti|assumption|assumption].
        -- intros Hnf. exfalso.
           rewrite next_event_no_fault in Hclose; [discriminate|].
           rewrite Lsc. apply Forall_skipn. now apply Htl.
        -- intros Hnb. apply Lnb; [now apply Htl|].
           now apply (next_event_no_bytes (boot t0 sc)).
      * (* the port is closed *)
        do 2 eexists. exists Completed.
        split; [reflexivity|].
        unfold run_post, expected_stdout, expected_status.
        cbn [clock stdout rx port_open read_timeout script trace write].
        rewrite Lt, Lo. trace_calc. use_eqs. trace_calc.
        rewrite ?app_nil_r.
        repeat apply conj; try reflexivity; try assumption.
        -- unfold header, footer. rewrite <- !app_assoc. reflexivity.
        -- exists early. repeat apply conj; [now rewrite Lti|assumption|assumption].
        -- intros Hnb. apply Lnb; [now apply Htl|].
           now apply (next_event_no_bytes (boot t0 sc)).
    + (* a driver call failed in the loop *)
      destruct Lr as (Lfa & Lpf & Lti).
      exists 1, (write (error_line e) w'), (PollFailed e).
      split; [reflexivity|].
      unfold run_post, expected_stdout, expected_status.
      cbn [clock stdout rx port_open read_timeout script trace write].
      rewrite Lt, Lo, Lp. trace_calc. use_eqs. trace_calc.
      rewrite ?app_nil_r.
      repeat apply conj; try reflexivity; try assumption.
      * exists (times d). split; [reflexivity|assumption].
      * intros Hnf. destruct (Lnf (Htl _ Hnf)) as [u Hu]. discriminate.
      * intros Hnb. apply Lnb; [now apply Htl|].
        now apply (next_event_no_bytes (boot t0 sc)).
Qed.

Lemma run_stdout (t0 : Z) (sc : list event) (code : Z) (w : world) (en : ending) :
  run_post t0 sc code w en -> stdout w = ending_stdout en (trace w).
Proof.
  intros (Hout & _ & Hfa & Hop & _ & _ & Hca & _ & _ & _ & _ & _ & Hen & _).
  rewrite Hout. unfold expected_stdout. rewrite Hfa, Hop, Hca.
  destruct en; cbn [ending_stdout ending_failures flat_map app];
    rewrite ?app_nil_r; try reflexivity.
  destruct Hen as [_ Hch]. unfold device_text. now rewrite Hch.
Qed.

Lemma run_status (t0 : Z) (sc : list event) (code : Z) (w : world) (en : ending) :
  run_post t0 sc code w en ->
  code = match en with Completed => 0 | _ => 1 end.
Proof.
  intros (_ & Hcode & Hfa & _). rewrite Hcode. unfold expected_status.
  rewrite Hfa. now destruct en.
Qed.

(** The script always terminates: the fuel of [run] is never used up. *)
Lemma run_total (t0 : Z) (sc : list event) :
  exists code w, run t0 sc = Some (code, w).
Proof.
  destruct (run_spec t0 sc) as (code & w & en & E & _). eauto.
Qed.

(** More fuel changes nothing once a loop has finished. *)
Lemma poll_loop_more_fuel (fuel : nat) (start_time : Z) :
  forall w x,
    poll_loop fuel start_time w = Some x ->
    poll_loop (S fuel) start_time w = Some x.
Proof.
  induction fuel as [|fuel IH]; intros w x H; [discriminate H|].
  cbn [poll_loop] in H. change (poll_loop (S (S fuel)) start_time w)
    with ((now <- time_time ;;
           if now - start_time <? MONITOR_MS
           then poll_once ;; poll_loop (S fuel) start_time
           else ret tt) w).
  unfold bind at 1 in H. unfold bind at 1.
  unfold time_time at 1 in H. unfold time_time at 1.
  destruct (clock w - start_time <? MONITOR_MS); [|exact H].
  unfold bind at 1 in H. unfold bind at 1.
  destruct (poll_once _) as [[[u|e] w1]|]; [|exact H|exact H].
  now apply IH.
Qed.

Lemma bind_mono_right {A B} (m : M A) (k k' : A -> M B) :
  (forall a w x, k a w = Some x -> k' a w = Some x) ->
  forall w x, bind m k w = Some x -> bind m k' w = Some x.
Proof.
  intros Hk w x. unfold bind.
  destruct (m w) as [[[a|e] w1]|]; auto.
Qed.

Lemma bind_mono_left {A B} (m m' : M A) (k : A -> M B) :
  (forall w y, m w = Some y -> m' w = Some y) ->
  forall w x, bind m k w = Some x -> bind m' k w = Some x.
Proof.
  intros Hm w x. unfold bind.
  destruct (m w) as [y|] eqn:E; [|discriminate].
  now rewrite (Hm _ _ E).
Qed.

Lemma monitor_serial_more_fuel (fuel : nat) (w : world) (x : Z * world) :
  monitor_serial fuel w = Some x -> monitor_serial (S fuel) w = Some x.
Proof.
  unfold monitor_serial.
  destruct (try_block fuel w) as [y|] eqn:E; [|discriminate].
  assert (E' : try_block (S fuel) w = Some y).
  { revert w y E. unfold try_block.
    apply bind_mono_right; intros _.
    apply bind_mono_right; intros _.
    apply bind_mono_right; intros _.
    apply bind_mono_right; intros start_time.
    apply bind_mono_left. apply poll_loop_more_fuel. }
  now rewrite E'.
Qed.

(** The outcome of a run does not depend on the fuel, from [FUEL] on. *)
Lemma run_fuel_independent (n : nat) (t0 : Z) (sc : list event) :
  monitor_serial (n + FUEL) (boot t0 sc) = run t0 sc.
Proof.
  induction n as [|n IH]; [reflexivity|].
  destruct (run_total t0 sc) as (code & w & E).
  rewrite E in *. change (S n + FUEL)%nat with (S (n + FUEL)).
  now apply monitor_serial_more_fuel.
Qed.

(** * The claims *)











(** C6. The guard is evaluated before every round of the loop, and the
    loop stops at the first reading that is at least the monitoring
    duration after the recorded start.  With a sleep that lasts the poll
    interval and a read that returns within the read timeout, that reading
    comes less than monitoring duration + poll interval + read timeout
    after the start, whatever the device does. *)
Theorem loop_stops_at_deadline (t0 : Z) (sc : list event) :
  exists code w,
    run t0 sc = Some (code, w)
    /\ clock w - t0 < MONITOR_MS + POLL_MS + ms_of_seconds READ_TIMEOUT
    /\ Forall (fun ms => ms = POLL_MS) (sleeps (trace w))
    /\ (poll_failed (trace w) = false -> open_failed (trace w) = false ->
        exists early,
          times (trace w) = t0 :: early ++ [clock w]
          /\ Forall (fun t => t - t0 < MONITOR_MS) early
          /\ MONITOR_MS <= clock w - t0
          /\ length (sleeps (trace w)) = length early).
Proof.
  destruct (run_spec t0 sc) as (code & w & en & E & P).
  exists code, w. split; [exact E|].
  destruct P as (_ & _ & _ & _ & Hof & Hpf & _ & _ & _ & Hsl & _ & Hclk & Hen & _).
  split; [exact Hclk|]. split; [exact Hsl|].
  intros Hp Ho. rewrite Hp in Hpf. rewrite Ho in Hof.
  destruct en; try discriminate;
    destruct Hen as (Hend & early & Hti & Hearly & Hlen);
    exists early; repeat split; assumption.
Qed.

Lemma loop_stops_at_deadline_witness :
  exists w early,
    run 0 one_byte_script_slow = Some (0, w)
    /\ times (trace w) = 0 :: early ++ [clock w]
    /\ Forall (fun t => t - 0 < MONITOR_MS) early
    /\ MONITOR_MS <= clock w - 0
    /\ clock w - 0 < MONITOR_MS + POLL_MS + ms_of_seconds READ_TIMEOUT.
Proof.
  destruct (loop_stops_at_deadline 0 one_byte_script_slow)
    as (code & w & E & Hclk & _ & Hloop).
  assert (Hrun : exists w', run 0 one_byte_script_slow = Some (0, w')
                            /\ poll_failed (trace w') = false
                            /\ open_failed (trace w') = false)
    by (eexists; split; [vm_compute; reflexivity|
                         split; vm_compute; reflexivity]).
  destruct Hrun as (w' & E' & Hp & Ho).
  rewrite E' in E. injection E as <- <-.
  destruct (Hloop Hp Ho) as (early & Hti & Hearly & Hend & _).
  exists w', early. repeat split; assumption.
Defined.

(** The expected output and status only look at the driver calls. *)
Lemma failures_device_log tr : failures (device_log tr) = failures tr.
Proof.
  induction tr as [|c tr IH]; [reflexivity|].
  destruct c as [? ? ? []|[]|? []|[]| | | |]; cbn;
    first [reflexivity | exact IH | f_equal; exact IH].
Qed.

Lemma chunks_device_log tr : chunks (device_log tr) = chunks tr.
Proof.
  induction tr as [|c tr IH]; [reflexivity|].
  destruct c as [? ? ? []|[]|? []|[]| | | |]; cbn;
    first [reflexivity | exact IH | f_equal; exact IH].
Qed.

Lemma opened_device_log tr : opened (device_log tr) = opened tr.
Proof.
  induction tr as [|c tr IH]; [reflexivity|].
  destruct c as [? ? ? []|[]|? []|[]| | | |]; cbn;
    first [reflexivity | exact IH | f_equal; exact IH].
Qed.

Lemma close_attempted_device_log tr :
  close_attempted (device_log tr) = close_attempted tr.
Proof.
  induction tr as [|c tr IH]; [reflexivity|].
  destruct c as [? ? ? []|[]|? []|[]| | | |]; cbn;
    first [reflexivity | exact IH | f_equal; exact IH].
Qed.

Lemma expected_stdout_device_log tr :
  expected_stdout (device_log tr) = expected_stdout tr.
Proof.
  unfold expected_stdout, device_text.
  now rewrite failures_device_log, chunks_device_log, opened_device_log,
    close_attempted_device_log.
Qed.

Lemma expected_status_device_log tr :
  expected_status (device_log tr) = expected_status tr.
Proof. unfold expected_status. now rewrite failures_device_log. Qed.



Lemma firstn_length_app {A} (a b : list A) : firstn (length a) (a ++ b) = a.
Proof. induction a as [|x a IH]; cbn; [reflexivity|now rewrite IH]. Qed.

Lemma skipn_length_app {A} (a b : list A) : skipn (length a) (a ++ b) = b.
Proof. induction a as [|x a IH]; cbn; [reflexivity|exact IH]. Qed.

(** C8. One round of the poll loop, when no driver call fails.  If no
    bytes are waiting, the round only sleeps for the poll interval.  If
    bytes are waiting, everything buffered at that moment is read in one
    call, decoded leniently, written to standard output as it is (no line
    break added) and flushed at once; bytes that arrive during the read
    stay in the buffer; the round then sleeps for the poll interval too. *)
Theorem poll_iteration (w : world) :
  let waiting := rx w ++ arrived (nth_event 0 w) in
  let buffered := waiting ++ arrived (nth_event 1 w) in
  fault (nth_event 0 w) = None ->
  if (0 <? length waiting)%nat then
    fault (nth_event 1 w) = None ->
    fault (nth_event 2 w) = None ->
    exists w',
      poll_once w = Some (Ok tt, w')
      /\ trace w' = trace w ++ [CInWaiting (Ok (length waiting));
                                CInWaiting (Ok (length buffered));
                                CRead (length buffered) (Ok buffered);
                                CWrite (lenient buffered);
                                CFlush;
                                CSleep POLL_MS]
      /\ decode_utf8 ignore buffered = Ok (lenient buffered)
      /\ stdout w' = stdout w ++ lenient buffered
      /\ rx w' = arrived (nth_event 2 w)
      /\ clock w' = clock w
                    + Z.min (Z.of_nat (delay (nth_event 2 w))) (read_timeout w)
                    + POLL_MS
  else
    exists w',
      poll_once w = Some (Ok tt, w')
      /\ trace w' = trace w ++ [CInWaiting (Ok 0%nat); CSleep POLL_MS]
      /\ stdout w' = stdout w
      /\ rx w' = []
      /\ clock w' = clock w + POLL_MS.
Proof.
  unfold poll_once, bind, ser_in_waiting, ser_read, lift_result, print,
    stdout_flush, time_sleep, ret, write, next_event, nth_event.
  destruct w as [clk out buf po rt sc tr]; cbn [script rx fault].
  destruct sc as [|e1 [|e2 [|e3 rest]]];
    cbn -[Nat.ltb decode_utf8 firstn skipn length app Z.add Z.min];
    intros F1; rewrite ?F1;
    match goal with
    | |- context [(0 <? length ?l)%nat] =>
      destruct (0 <? length l)%nat eqn:Hn
    end.
  all: try (intros F2 F3).
  all: repeat (cbn -[Nat.ltb decode_utf8 firstn skipn length app Z.add Z.min];
               match goal with
               | H : fault ?e = None |- context [fault ?e] => rewrite H
               end).
  all: cbn -[Nat.ltb decode_utf8 firstn skipn length app Z.add Z.min];
    rewrite ?firstn_length_app, ?skipn_length_app, ?decode_ignore.
  all: try (apply Nat.ltb_ge in Hn;
            match type of Hn with
            | (length ?l <= 0)%nat =>
              destruct l; [|cbn [length] in Hn; lia]
            end).
  all: eexists; (split; [reflexivity|]);
    cbn -[Nat.ltb decode_utf8 firstn skipn length app Z.add Z.min];
    rewrite ?decode_ignore, <- ?app_assoc, ?app_nil_r;
    repeat apply conj; reflexivity.
Qed.

Lemma poll_iteration_witness :
  exists w',
    poll_once (boot 0 [ev_bytes [x68]; ev_bytes [x69]])
    = Some (Ok tt, w')
    /\ stdout w' = lit "hi"
    /\ clock w' = POLL_MS.
Proof.
  destruct (poll_iteration (boot 0 [ev_bytes [x68]; ev_bytes [x69]])
                           eq_refl eq_refl eq_refl)
    as (w' & E & _ & _ & Hout & _ & Hclk).
  exists w'. repeat split; assumption.
Defined.

(** * Reasoning about the script statement by statement *)

Lemma time_time_tick (w : world) : time_time w = Some (Ok (clock w), tick w).
Proof. reflexivity. Qed.

(** A rule for the loop: [L] holds at the head of every round, [F] when
    the loop is left at the deadline, [E] when a round raises. *)
Lemma poll_loop_rule (L F : world -> Prop) (E : exn -> world -> Prop)
      (start_time : Z) :
  (forall w r w',
      L w -> clock w - start_time < MONITOR_MS ->
      poll_once (tick w) = Some (r, w') ->
      match r with Ok _ => L w' | Raise e => E e w' end) ->
  (forall w, L w -> MONITOR_MS <= clock w - start_time -> F (tick w)) ->
  forall fuel w r w',
    L w -> poll_loop fuel start_time w = Some (r, w') ->
    match r with Ok _ => F w' | Raise e => E e w' end.
Proof.
  intros Hround Hexit.
  induction fuel as [|fuel IH]; intros w r w' HL Hloop; [discriminate Hloop|].
  cbn [poll_loop] in Hloop. unfold bind at 1 in Hloop.
  rewrite time_time_tick in Hloop.
  destruct (clock w - start_time <? MONITOR_MS) eqn:Hguard.
  - apply Z.ltb_lt in Hguard. unfold bind at 1 in Hloop.
    destruct (poll_once (tick w)) as [[[u|e] w1]|] eqn:Eonce;
      [|injection Hloop as <- <-|discriminate Hloop].
    + apply (IH w1); [|exact Hloop].
      exact (Hround w (Ok u) w1 HL Hguard Eonce).
    + exact (Hround w (Raise e) w1 HL Hguard Eonce).
  - apply Z.ltb_ge in Hguard. injection Hloop as <- <-.
    now apply Hexit.
Qed.

(** A rule for the whole script.  [P] holds when the process starts, [I]
    from the successful open to the reading of the start time, [L] at
    the head of every round of the loop, [F] from the end of the loop to
    the call of close, and [Q] when the process exits. *)
Lemma script_rule (P I F Q : world -> Prop) (L : Z -> world -> Prop) :
  (forall w r w',
      P w -> Serial DEVICE BAUDRATE READ_TIMEOUT w = Some (r, w') ->
      match r with Ok _ => I w' | Raise e => Q (write (error_line e) w') end) ->
  (forall w s, I w -> I (write s w)) ->
  (forall w, I w -> L (clock w) (tick w)) ->
  (forall st w r w',
      L st w -> clock w - st < MONITOR_MS ->
      poll_once (tick w) = Some (r, w') ->
      match r with Ok _ => L st w' | Raise e => Q (write (error_line e) w') end) ->
  (forall st w, L st w -> MONITOR_MS <= clock w - st -> F (tick w)) ->
  (forall w s, F w -> F (write s w)) ->
  (forall w r w',
      F w -> ser_close w = Some (r, w') ->
      match r with Ok _ => Q w' | Raise e => Q (write (error_line e) w') end) ->
  forall t0 sc code w,
    P (boot t0 sc) -> run t0 sc = Some (code, w) -> Q w.
Proof.
  intros Hopen Hprint Hstart Hround Hexit Hfoot Hclose t0 sc code w HP Hrun.
  unfold run, monitor_serial in Hrun.
  destruct (try_block FUEL (boot t0 sc)) as [[r w1]|] eqn:Etry;
    [|discriminate Hrun].
  enough (Hpost : match r with
                  | Ok _ => Q w1
                  | Raise e => Q (write (error_line e) w1)
                  end).
  { destruct r as [u|e]; injection Hrun as <- <-; exact Hpost. }
  revert Etry. unfold try_block. unfold bind at 1.
  destruct (Serial DEVICE BAUDRATE READ_TIMEOUT (boot t0 sc))
    as [[[u|e] w2]|] eqn:ES; [|intros [= <- <-]|discriminate].
  2: exact (Hopen _ _ _ HP ES).
  pose proof (Hopen _ _ _ HP ES) as HI. cbn beta iota in HI.
  unfold bind at 1, print at 1. unfold bind at 1, print at 1.
  unfold bind at 1. rewrite time_time_tick.
  set (w3 := write (separator ++ newline) (write (status_line ++ newline) w2)).
  assert (HI3 : I w3) by (apply Hprint, Hprint, HI).
  unfold bind at 1.
  destruct (poll_loop FUEL (clock w3) (tick w3)) as [[[u4|e4] w4]|] eqn:Eloop;
    [|intros [= <- <-]|discriminate].
  - pose proof (poll_loop_rule (L (clock w3)) F
                  (fun e w' => Q (write (error_line e) w')) (clock w3)
                  (Hround (clock w3)) (Hexit (clock w3))
                  FUEL (tick w3) (Ok u4) w4 (Hstart _ HI3) Eloop) as HF.
    cbn beta iota in HF.
    unfold bind at 1, print at 1. unfold bind at 1, print at 1.
    intros Eclose.
    apply (Hclose _ r w1 (Hfoot _ _ (Hfoot _ _ HF)) Eclose).
  - exact (poll_loop_rule (L (clock w3)) F
             (fun e w' => Q (write (error_line e) w')) (clock w3)
             (Hround (clock w3)) (Hexit (clock w3))
             FUEL (tick w3) (Raise e4) w4 (Hstart _ HI3) Eloop).
Qed.

(** * Further properties of the script *)



(** * Further properties of the decoding *)

Lemma lenient_ascii (data : bytes) :
  Forall (fun b => is_ascii (byte_val b) = true) data ->
  lenient data = map byte_val data.
Proof.
  unfold lenient.
  induction data as [|b data IH]; intros H; [reflexivity|].
  inversion H as [|? ? Hb Hrest]; subst.
  cbn [utf8_scan]. unfold is_ascii in Hb. rewrite Hb.
  cbn [kept map]. now rewrite IH.
Qed.

Lemma utf8_scan_scalar (data : bytes) : Forall scalar_item (utf8_scan data).
Proof.
  induction data as [data IH] using bytes_length_ind.
  destruct data as [|c1 s1]; [constructor|].
  pose proof (byte_val_range c1).
  cbn [utf8_scan].
  repeat (scan_case;
          try match goal with
              | c : byte |- _ =>
                lazymatch goal with
                | H : 0 <= byte_val c < 256 |- _ => fail
                | _ => pose proof (byte_val_range c)
                end
              end);
    repeat constructor;
    try (apply IH; cbn [length]; lia);
    bool_facts; unfold scalar_value;
    rewrite ?Z.shiftl_mul_pow2 by lia; lia.
Qed.

Lemma utf8_collect_scalar (errors : error_handler) (items : list utf8_item) :
  Forall scalar_item items ->
  forall pos text,
    utf8_collect errors pos items = Ok text -> Forall scalar_value text.
Proof.
  induction 1 as [|it items Hit _ IH]; intros pos text Hc; cbn in Hc.
  - injection Hc as <-. constructor.
  - destruct it as [c n|reason first n].
    + destruct (utf8_collect errors (pos + n) items) as [rest|] eqn:E;
        [|discriminate Hc].
      injection Hc as <-. constructor; [exact Hit|exact (IH _ _ E)].
    + destruct errors; [discriminate Hc|exact (IH _ _ Hc)|].
      destruct (utf8_collect replace (pos + n) items) as [rest|] eqn:E;
        [|discriminate Hc].
      injection Hc as <-. constructor; [|exact (IH _ _ E)].
      unfold scalar_value. lia.
Qed.

(** X8. Whatever the bytes, and for each of the error handlers
    [strict], [ignore] (the one of the script) and [replace], a text
    that [decode] returns consists of Unicode scalar values only: code
    points up to U+10FFFF, none of them a surrogate.  Overlong forms,
    encoded surrogates and values above U+10FFFF are never decoded.
    (Python's handlers [surrogateescape] and [surrogatepass] do return
    surrogates; they are not among the handlers of [error_handler].) *)
Theorem decoded_text_is_scalar (errors : error_handler) (data : bytes)
        (text : pystr) :
  decode_utf8 errors data = Ok text -> Forall scalar_value text.
Proof.
  apply utf8_collect_scalar, utf8_scan_scalar.
Qed.

Lemma decoded_text_is_scalar_witness :
  Forall scalar_value [233; 0x1F600].
Proof.
  apply (decoded_text_is_scalar ignore
           [xed; xa0; x80; xc3; xa9; xc0; xaf; xf0; x9f; x98; x80; xf4; x90]).
  reflexivity.
Defined.

Lemma utf8_collect_strict (items : list utf8_item) :
  forall pos text,
    utf8_collect strict pos items = Ok text ->
    kept items = text /\ existsb is_unexpected_end items = false.
Proof.
  induction items as [|[c n|reason first n] items IH]; intros pos text Hc;
    cbn in Hc; [injection Hc as <-; now split| |discriminate Hc].
  destruct (utf8_collect strict (pos + n) items) as [rest|] eqn:E;
    [|discriminate Hc].
  injection Hc as <-. destruct (IH _ _ E) as [Hk Hu].
  cbn. now rewrite Hk, Hu.
Qed.

(** X9. On well-formed input nothing is dropped: when a strict decode of
    a chunk succeeds, the lenient decode gives the same text, and the
    chunk does not disturb what follows it: the lenient decoding of the
    chunk followed by any more bytes is that text followed by the lenient
    decoding of the rest. *)
Theorem well_formed_chunk_stands_alone (data : bytes) (text : pystr) :
  decode_utf8 strict data = Ok text ->
  decode_utf8 ignore data = Ok text
  /\ forall more, lenient (data ++ more) = text ++ lenient more.
Proof.
  intros Hs. apply utf8_collect_strict in Hs. destruct Hs as [Hk Hu].
  split.
  - rewrite decode_ignore. now unfold lenient; rewrite Hk.
  - intros more. rewrite lenient_app by exact Hu.
    now unfold lenient at 1; rewrite Hk.
Qed.

Lemma well_formed_chunk_stands_alone_witness :
  decode_utf8 ignore [x41; xc3; xa9] = Ok [65; 233]
  /\ forall more, lenient ([x41; xc3; xa9] ++ more) = [65; 233] ++ lenient more.
Proof.
  apply (well_formed_chunk_stands_alone [x41; xc3; xa9] [65; 233]).
  reflexivity.
Defined.

(** * The process around the script *)

Ltac plain_call :=
  intros b;
  repeat match goal with
         | |- context [fault ?e] => destruct (fault e)
         end;
  eexists _, _, _; (split; [reflexivity|]);
  unfold one_call, is_serial, keeps_port; cbn;
  repeat split; try lia; try reflexivity;
  repeat constructor; eauto.

Lemma plain_Serial (port : string) (baudrate timeout : Z) :
  0 <= timeout -> plain keeps_port (Serial port baudrate timeout).
Proof. intros Ht. unfold Serial, ms_of_seconds. plain_call. Qed.

Lemma plain_in_waiting : plain keeps_port ser_in_waiting.
Proof. unfold ser_in_waiting. plain_call. Qed.

Lemma plain_read (size : nat) : plain keeps_port (ser_read size).
Proof. unfold ser_read. plain_call. Qed.

Lemma plain_close : plain (fun _ => True) ser_close.
Proof. unfold ser_close. plain_call. Qed.

Lemma plain_time : plain keeps_port time_time.
Proof. unfold time_time. plain_call. Qed.

Lemma plain_sleep (ms : Z) : 0 <= ms -> plain keeps_port (time_sleep ms).
Proof. intros Hms. unfold time_sleep. plain_call. Qed.

Lemma plain_print (s e : pystr) : plain keeps_port (print s e).
Proof. unfold print, write. plain_call. Qed.

Lemma plain_flush : plain keeps_port stdout_flush.
Proof. unfold stdout_flush. plain_call. Qed.

Lemma opened_last (tr : list call) (c : call) :
  opened (tr ++ [c]) = opened tr || is_open_ok c.
Proof. rewrite opened_app. cbn. now rewrite orb_false_r. Qed.

Lemma failures_last (tr : list call) (c : call) :
  failures (tr ++ [c]) = failures tr ++ failure_of c.
Proof. rewrite failures_app. cbn. now rewrite app_nil_r. Qed.

(** A call that does not close the port leaves an opened port open. *)
Lemma live_step {A} (b : world) (r : result A) (b' : world) (c : call) :
  live b -> one_call b r b' c -> is_close_ok c = false -> live b'.
Proof.
  intros [Hport Hrt] (Htr & _ & _ & Hpo & Hclock) Hc.
  split; [|now apply Hclock].
  rewrite Htr, opened_last, Hpo, Hc.
  destruct (is_open_ok c); [reflexivity|].
  now rewrite orb_false_r.
Qed.

Lemma failed_call_keeps_port (c : call) (e : exn) :
  failure_of c = [e] -> is_close_ok c = false.
Proof. destruct c as [? ? ? []|[]|? []|[]| | | |]; cbn; congruence. Qed.

Lemma failure_is_device_call (c : call) (e : exn) :
  failure_of c = [e] -> is_device_call c = true.
Proof. destruct c as [? ? ? []|[]|? []|[]| | | |]; cbn; congruence. Qed.

Lemma device_log_last (tr : list call) (c : call) :
  is_device_call c = true -> device_log (tr ++ [c]) = device_log tr ++ [c].
Proof. intros H. rewrite device_log_app. cbn. now rewrite H. Qed.

(** A call of the process: it ends, and leaves the process settled. *)
Lemma call_spec {A} (writes : bool) (G : call -> Prop) (m : M A)
      (s : Process.state) :
  plain G m ->
  live (Process.base s) ->
  Process.clean s ->
  exists r s',
    Process.call writes m s = Some (r, s')
    /\ Process.settled r s'
    /\ match r with
       | Process.Done a =>
         exists c,
           m (Process.base s) = Some (Ok a, Process.base s')
           /\ one_call (Process.base s) (Ok a) (Process.base s') c
           /\ G c
       | _ => True
       end.
Proof.
  intros Hm Hs [Hfa Hmi].
  destruct (Hm (Process.base s)) as (r & b' & c & E & Hc & HG).
  assert (Hgo : exists r' s',
             Process.settle s (m (Process.base s)) = Some (r', s')
             /\ Process.settled r' s'
             /\ match r' with
                | Process.Done a =>
                  exists c,
                    m (Process.base s) = Some (Ok a, Process.base s')
                    /\ one_call (Process.base s) (Ok a) (Process.base s') c
                    /\ G c
                | _ => True
                end).
  { rewrite E. pose proof Hc as (Htr & Hf & Hse & _).
    destruct r as [a|e]; cbn.
    - eexists _, _. split; [reflexivity|]. split.
      + split; cbn; [|exact Hmi]. now rewrite Htr, failures_last, Hfa, Hf.
      + cbn. exists c. auto.
    - eexists _, _. split; [reflexivity|]. split; [|exact I].
      cbn. split.
      { apply (live_step _ _ _ _ Hs Hc). now apply failed_call_keeps_port with e. }
      split; [exact Hmi|]. split.
      + rewrite Hf in Hse. now inversion Hse.
      + exists (device_log (trace (Process.base s))), c.
        rewrite Htr, failures_device_log.
        repeat split; try assumption.
        apply device_log_last. now apply failure_is_device_call with e. }
  unfold Process.call.
  destruct (Process.next_hazard s) as [| |msg]; [exact Hgo| |].
  - eexists _, _. split; [reflexivity|]. split; [|exact I].
    cbn. rewrite Hmi. auto.
  - destruct writes; [|exact Hgo].
    eexists _, _. split; [reflexivity|]. split; [|exact I].
    cbn. rewrite Hmi. auto.
Qed.

(** A call that does not close the port. *)
Lemma triple_call {A} (writes : bool) (m : M A)
      (pre : world -> Prop) (post : A -> world -> Prop) :
  plain keeps_port m ->
  (forall b a b',
      0 <= read_timeout b -> pre b -> m b = Some (Ok a, b') -> post a b') ->
  Process.triple pre (Process.call writes m) (fun a b => live b /\ post a b).
Proof.
  intros Hm Hpost s Hs Hc Hpre.
  destruct (call_spec writes _ m s Hm Hs Hc) as (r & s' & E & Hset & Hr).
  exists r, s'. split; [exact E|]. split; [exact Hset|].
  destruct r as [a| |]; try exact I.
  destruct Hr as (c & Em & Hone & Hkeep).
  split; [exact (live_step _ _ _ _ Hs Hone Hkeep)|].
  exact (Hpost _ _ _ (proj2 Hs) Hpre Em).
Qed.

(** The call of close. *)
Lemma triple_close (pre : world -> Prop) (post : unit -> world -> Prop) :
  (forall b b', pre b -> ser_close b = Some (Ok tt, b') -> post tt b') ->
  Process.triple pre Process.ser_close post.
Proof.
  intros Hpost s Hs Hc Hpre.
  destruct (call_spec false _ ser_close s plain_close Hs Hc)
    as (r & s' & E & Hset & Hr).
  exists r, s'. split; [exact E|]. split; [exact Hset|].
  destruct r as [[]| |]; try exact I.
  destruct Hr as (c & Em & _). exact (Hpost _ _ Hpre Em).
Qed.

Lemma triple_bind {A B} (m : Process.M A) (k : A -> Process.M B)
      (pre : world -> Prop) (mid : A -> world -> Prop)
      (post : B -> world -> Prop) :
  Process.triple pre m (fun a b => live b /\ mid a b) ->
  (forall a b, mid a b -> Process.triple (mid a) (k a) post) ->
  Process.triple pre (Process.bind m k) post.
Proof.
  intros Hm Hk s Hs Hc Hpre.
  destruct (Hm s Hs Hc Hpre) as (r & s' & E & Hset & Hmid).
  unfold Process.bind. rewrite E.
  destruct r as [a|e|].
  - destruct Hmid as [Hs' Hmid]. exact (Hk a _ Hmid s' Hs' Hset Hmid).
  - exists (Process.Raised e), s'. repeat split; try exact I; apply Hset.
  - exists Process.Interrupted, s'. repeat split; try exact I; apply Hset.
Qed.

Lemma triple_ret {A} (a : A) (pre : world -> Prop) (post : A -> world -> Prop) :
  (forall b, pre b -> post a b) ->
  Process.triple pre (Process.ret a) (fun a b => live b /\ post a b).
Proof.
  intros H s Hs Hc Hpre. exists (Process.Done a), s.
  split; [reflexivity|]. split; [exact Hc|]. split; [exact Hs|now apply H].
Qed.

Lemma triple_weaken {A} (m : Process.M A)
      (pre pre' : world -> Prop) (post post' : A -> world -> Prop) :
  Process.triple pre m post ->
  (forall b, pre' b -> pre b) ->
  (forall a b, post a b -> post' a b) ->
  Process.triple pre' m post'.
Proof.
  intros Hm Hpre Hpost s Hs Hc Hp.
  destruct (Hm s Hs Hc (Hpre _ Hp)) as (r & s' & E & Hset & Hq).
  exists r, s'. repeat split; try assumption.
  destruct r; auto.
Qed.

(** Decoding with [errors='ignore'] changes nothing and never raises. *)
Lemma triple_decode (raw : bytes) (pre : world -> Prop) :
  Process.triple pre (Process.decode ignore raw) (fun _ b => live b /\ pre b).
Proof.
  intros s Hs Hc Hpre. unfold Process.decode. rewrite decode_ignore.
  eexists _, s. split; [reflexivity|]. split; [exact Hc|now split].
Qed.

(** The clock does not go back during a call. *)
Lemma triple_call_clock {A} (writes : bool) (m : M A) (c : Z) :
  plain keeps_port m ->
  Process.triple (fun b => c <= clock b) (Process.call writes m)
                 (fun _ b => live b /\ c <= clock b).
Proof.
  intros Hm. apply triple_call; [exact Hm|].
  intros b a b' Hrt Hc E.
  destruct (Hm b) as (r & b0 & c0 & E0 & (_ & _ & _ & _ & Hclock) & _).
  rewrite E in E0. injection E0 as <- <-.
  specialize (Hclock Hrt). lia.
Qed.

(** One round of the loop takes at least the time of its sleep. *)
Lemma poll_once_triple (c : Z) :
  Process.triple (fun b => c <= clock b) Process.poll_once
                 (fun _ b => live b /\ c + POLL_MS <= clock b).
Proof.
  unfold Process.poll_once.
  apply triple_bind with (mid := fun _ b => c <= clock b);
    [apply triple_call_clock, plain_in_waiting|].
  intros n _ _.
  apply triple_bind with (mid := fun _ b => c <= clock b).
  - destruct (0 <? n)%nat; [|now apply triple_ret].
    apply triple_bind with (mid := fun _ b => c <= clock b);
      [apply triple_call_clock, plain_in_waiting|].
    intros size _ _.
    apply triple_bind with (mid := fun _ b => c <= clock b);
      [apply triple_call_clock, plain_read|].
    intros raw _ _.
    apply triple_bind with (mid := fun _ b => c <= clock b);
      [apply triple_decode|].
    intros data _ _.
    apply triple_bind with (mid := fun _ b => c <= clock b);
      [apply triple_call_clock, plain_print|].
    intros _ _ _. apply triple_call_clock, plain_flush.
  - intros _ _ _. apply triple_call; [apply plain_sleep; unfold POLL_MS; lia|].
    intros b a b' _ Hc E. unfold time_sleep in E.
    injection E as _ <-. cbn. lia.
Qed.

(** The loop ends within its fuel, at or after the deadline. *)
Lemma poll_loop_triple (start_time : Z) (fuel : nat) :
  forall c,
    (0 < fuel)%nat ->
    start_time + MONITOR_MS - c <= POLL_MS * (Z.of_nat fuel - 1) ->
    Process.triple (fun b => c <= clock b)
                   (Process.poll_loop fuel start_time)
                   (fun _ b => live b /\ start_time + MONITOR_MS <= clock b).
Proof.
  induction fuel as [|fuel IH]; intros c Hfuel Hc; [lia|].
  cbn [Process.poll_loop].
  apply triple_bind with (mid := fun now b => c <= now /\ now <= clock b).
  - apply triple_call; [apply plain_time|].
    intros b a b' _ Hb E. unfold time_time in E. injection E as <- <-.
    cbn. lia.
  - intros now b0 [Hnow _].
    destruct (now - start_time <? MONITOR_MS) eqn:Eg.
    + apply Z.ltb_lt in Eg.
      apply triple_bind with (mid := fun _ b => c + POLL_MS <= clock b).
      * apply triple_weaken
          with (pre := fun b => c <= clock b)
               (post := fun (_ : unit) b => live b /\ c + POLL_MS <= clock b);
          [apply poll_once_triple | intros b [? ?]; lia | auto].
      * intros _ _ _. unfold POLL_MS in *. apply IH; lia.
    + apply Z.ltb_ge in Eg. apply triple_ret. intros b [? ?]. lia.
Qed.

(** The [try] block of a process started at [t0]. *)
Lemma try_block_triple (t0 : Z) :
  Process.triple (fun b => t0 <= clock b) (Process.try_block FUEL)
                 (fun _ b => finished t0 b).
Proof.
  unfold Process.try_block.
  apply triple_bind with (mid := fun _ b => t0 <= clock b);
    [apply triple_call_clock, plain_Serial; unfold READ_TIMEOUT; lia|].
  intros _ _ _.
  apply triple_bind with (mid := fun _ b => t0 <= clock b);
    [apply triple_call_clock, plain_print|].
  intros _ _ _.
  apply triple_bind with (mid := fun _ b => t0 <= clock b);
    [apply triple_call_clock, plain_print|].
  intros _ _ _.
  apply triple_bind with (mid := fun now b => t0 <= now /\ now <= clock b).
  { apply triple_call; [apply plain_time|].
    intros b a b' _ Hb E. unfold time_time in E. injection E as <- <-.
    cbn. lia. }
  intros start_time _ [Hstart _].
  apply triple_bind with (mid := fun _ b => t0 + MONITOR_MS <= clock b).
  { apply triple_weaken
      with (pre := fun b => start_time <= clock b)
           (post := fun (_ : unit) b =>
                      live b /\ start_time + MONITOR_MS <= clock b).
    - apply poll_loop_triple; unfold FUEL, POLL_MS, MONITOR_MS, ms_of_seconds;
        cbn; lia.
    - intros b [_ H]. exact H.
    - intros _ b [Hl H]. split; [exact Hl|lia]. }
  intros _ _ _.
  apply triple_bind
    with (mid := fun _ b =>
                   t0 + MONITOR_MS <= clock b
                   /\ exists tr,
                       trace b = tr ++ [CWrite ((newline ++ separator) ++ newline)]).
  { apply triple_call; [apply plain_print|].
    intros b a b' _ Hb E. unfold print, write in E. injection E as _ <-.
    cbn. split; [exact Hb|]. eexists. reflexivity. }
  intros _ _ _.
  apply triple_bind
    with (mid := fun _ b =>
                   t0 + MONITOR_MS <= clock b
                   /\ exists tr,
                       trace b = tr ++ [CWrite ((newline ++ separator) ++ newline);
                                        CWrite (complete_line ++ newline)]).
  { apply triple_call; [apply plain_print|].
    intros b a b' _ [Hb [tr Htr]] E. unfold print, write in E.
    injection E as _ <-. cbn. split; [exact Hb|].
    exists tr. rewrite Htr, <- app_assoc. reflexivity. }
  intros _ _ _.
  apply triple_close.
  intros b b' [Hb [tr Htr]] E. unfold ser_close in E.
  destruct (fault (next_event b)); [discriminate|].
  injection E as <-. unfold finished; cbn.
  split; [reflexivity|].
  split; [unfold MONITOR_MS, ms_of_seconds in *; lia|].
  exists tr. rewrite Htr, <- app_assoc. reflexivity.
Qed.

(** The [print] of the handler: it changes nothing for the device. *)
Lemma handler_print (text : pystr) (s : Process.state) :
  exists r s' ws,
    Process.print text newline s = Some (r, s')
    /\ trace (Process.base s') = trace (Process.base s) ++ ws
    /\ device_log ws = []
    /\ port_open (Process.base s') = port_open (Process.base s)
    /\ read_timeout (Process.base s') = read_timeout (Process.base s)
    /\ match r with
       | Process.Done _ => Process.mishaps s' = Process.mishaps s
       | Process.Raised (Process.Base _) => False
       | Process.Raised (Process.StdoutFailure msg) =>
         Process.mishaps s' = Process.mishaps s ++ [Process.StdoutBroken msg]
       | Process.Interrupted =>
         Process.mishaps s'
         = Process.mishaps s ++ [Process.KeyboardInterrupt]
       end.
Proof.
  unfold Process.print, Process.call, print, write.
  destruct (Process.next_hazard s) as [| |msg]; cbn.
  - eexists _, _, [_]. repeat split.
  - eexists _, _, []. rewrite app_nil_r. repeat split.
  - eexists _, _, []. rewrite app_nil_r. repeat split.
Qed.

Lemma device_log_quiet (tr ws : list call) :
  device_log ws = [] -> device_log (tr ++ ws) = device_log tr.
Proof. intros H. now rewrite device_log_app, H, app_nil_r. Qed.

Lemma live_quiet (b b' : world) (ws : list call) :
  live b ->
  trace b' = trace b ++ ws ->
  device_log ws = [] ->
  port_open b' = port_open b ->
  read_timeout b' = read_timeout b ->
  live b'.
Proof.
  intros [Hport Hrt] Htr Hws Hpo Hto. unfold live.
  rewrite Hto, Hpo. split; [|exact Hrt].
  rewrite <- opened_device_log, Htr, (device_log_quiet _ _ Hws),
    opened_device_log.
  exact Hport.
Qed.

(** The script in the process: it is always left, in one of four ways. *)
Lemma monitor_serial_spec (t0 : Z) (sc : list event)
      (hz : list Process.hazard) :
  exists how s,
    Process.monitor_serial FUEL (Process.start t0 sc hz) = Some (how, s)
    /\ failure_shape s
    /\ existsb Process.is_exit_flush (Process.mishaps s) = false
    /\ leaving_facts t0 how s.
Proof.
  assert (Hs0 : live (Process.base (Process.start t0 sc hz))).
  { split; cbn; [discriminate|lia]. }
  assert (Hc0 : Process.clean (Process.start t0 sc hz)) by (split; reflexivity).
  destruct (try_block_triple t0 _ Hs0 Hc0) as (r & s & E & Hset & Hq);
    [cbn; lia|].
  unfold Process.monitor_serial. rewrite E.
  destruct r as [u|e|].
  - (* the try block completed *)
    destruct Hset as [Hfa Hmi].
    exists Process.Normal, s. split; [reflexivity|].
    split; [now left|].
    split; [now rewrite Hmi|]. split; [now split|exact Hq].
  - (* an exception reached the handler *)
    destruct (handler_print (lit "Error: " ++ Process.str_error e) s)
      as (r2 & s2 & ws & E2 & Htr & Hws & Hpo & Hto & Hmi2).
    rewrite E2.
    assert (Hdl : device_log (trace (Process.base s2))
                  = device_log (trace (Process.base s)))
      by (rewrite Htr; now apply device_log_quiet).
    assert (Hfa2 : failures (trace (Process.base s2))
                   = failures (trace (Process.base s)))
      by (now rewrite <- failures_device_log, Hdl, failures_device_log).
    destruct e as [e|msg].
    + destruct Hset as (Hs & Hmi & Hse & dl & c & Hlog & Hf & Hdlf).
      pose proof (live_quiet _ _ _ Hs Htr Hws Hpo Hto) as Hs2.
      assert (Hshape : failure_shape s2).
      { right. exists dl, c, e. rewrite Hdl. now repeat split. }
      assert (Hne : failures (trace (Process.base s2)) <> []).
      { rewrite Hfa2, <- failures_device_log, Hlog, failures_last, Hdlf, Hf.
        discriminate. }
      destruct r2 as [u|[e'|msg']|]; [| contradiction | |];
        eexists _, s2; (split; [reflexivity|]);
        (split; [exact Hshape|]); cbn [leaving_facts];
        rewrite Hmi2, Hmi; repeat (first [exact Hs2 | split]); cbn; auto.
    + destruct Hset as (Hs & Hfa & Hmi).
      pose proof (live_quiet _ _ _ Hs Htr Hws Hpo Hto) as Hs2.
      assert (Hshape : failure_shape s2) by (left; now rewrite Hfa2).
      destruct r2 as [u|[e'|msg']|]; [| contradiction | |];
        eexists _, s2; (split; [reflexivity|]);
        (split; [exact Hshape|]); cbn [leaving_facts];
        rewrite Hmi2, Hmi; repeat (first [exact Hs2 | split]); cbn; auto.
  - (* SIGINT *)
    destruct Hset as (Hs & Hfa & Hmi).
    exists Process.Killed, s. split; [reflexivity|].
    split; [now left|].
    split; [now rewrite Hmi|]. cbn [leaving_facts].
    split; [exact Hs|now rewrite Hmi].
Qed.

(** The finalizer calls close on a port that is still open, once. *)
Lemma finalizer_spec (b : world) :
  (port_open b = false /\ finalizer b = b)
  \/ (port_open b = true
      /\ exists r,
          trace (finalizer b) = trace b ++ [CClose r]
          /\ clock (finalizer b) = clock b
          /\ match r with
             | Ok _ => port_open (finalizer b) = false
             | Raise e => is_serial e /\ port_open (finalizer b) = true
             end).
Proof.
  unfold finalizer, ser_close.
  destruct (port_open b) eqn:Hpo; [right|now left].
  split; [reflexivity|].
  destruct (fault (next_event b)) as [msg|]; eexists; cbn;
    repeat split; unfold is_serial; eauto.
Qed.

Lemma flush_at_exit_spec (s : Process.state) :
  Process.base (snd (Process.flush_at_exit s)) = Process.base s
  /\ (fst (Process.flush_at_exit s) = true
      /\ Process.mishaps (snd (Process.flush_at_exit s)) = Process.mishaps s
      \/ fst (Process.flush_at_exit s) = false
         /\ Process.mishaps (snd (Process.flush_at_exit s))
            = Process.mishaps s ++ [Process.ExitFlushFailed]).
Proof.
  unfold Process.flush_at_exit.
  destruct (Process.next_hazard s); cbn; auto.
Qed.

Lemma failure_shape_serial (s : Process.state) :
  failure_shape s -> Forall is_serial (failures (trace (Process.base s))).
Proof.
  intros [H|(dl & c & e & Hlog & Hf & Hdl & Hse)]; [rewrite H; constructor|].
  rewrite <- failures_device_log, Hlog, failures_last, Hdl, Hf.
  now repeat constructor.
Qed.

(** When the script is left, the port is closed and close was the last
    call to the driver, or the port is as it was after the open. *)
Lemma leaving_port (t0 : Z) (how : Process.leaving) (s : Process.state) :
  leaving_facts t0 how s ->
  finished t0 (Process.base s) \/ live (Process.base s).
Proof. destruct how; cbn; intros H; [left|right|right|right]; apply H. Qed.

(** What the finalizer leaves behind. *)
Lemma finalizer_facts (t0 : Z) (s : Process.state) :
  finished t0 (Process.base s) \/ live (Process.base s) ->
  failure_shape s ->
  let b := Process.base s in
  (opened (trace (finalizer b)) = true ->
   exists dl r, device_log (trace (finalizer b)) = dl ++ [CClose r])
  /\ (port_open (finalizer b) = false
      \/ close_failed (trace (finalizer b)) = true)
  /\ Forall is_serial (failures (trace (finalizer b)))
  /\ (failures (trace (finalizer b)) <> [] ->
      exists dl c fin,
        device_log (trace (finalizer b)) = dl ++ [c] ++ fin
        /\ failures dl = []
        /\ failure_of c <> []
        /\ (fin = [] \/ exists r, fin = [CClose r]))
  /\ (failures (trace b) <> [] -> failures (trace (finalizer b)) <> [])
  /\ (port_open b = false -> finalizer b = b).
Proof.
  intros Hport Hshape b.
  pose proof (failure_shape_serial _ Hshape) as Hser.
  unfold failure_shape in Hshape. fold b in Hport, Hshape, Hser.
  destruct (finalizer_spec b) as [[Hpo Hsame]|(Hpo & r & Htr & _ & Hr)].
  - rewrite Hsame.
    split.
    { intros Hop. destruct Hport as [(_ & _ & tr & Htr)|[Hlive _]].
      - exists (device_log tr), (Ok tt).
        rewrite Htr, device_log_app. reflexivity.
      - rewrite (Hlive Hop) in Hpo. discriminate. }
    split; [now left|]. split; [exact Hser|].
    split; [|now split].
    intros Hne.
    destruct Hshape as [H|(dl & c & e & Hlog & Hf & Hdl & _)];
      [contradiction|].
    exists dl, c, []. rewrite Hlog, Hf.
    repeat split; auto; discriminate.
  - rewrite Htr, close_failed_app, failures_last.
    rewrite device_log_last by reflexivity.
    split; [intros _; eauto|].
    split; [destruct r; [now left|right; cbn; apply orb_true_r]|].
    split; [apply Forall_app; split; [exact Hser|];
            destruct r; cbn; [constructor|now repeat constructor]|].
    split; [|split; [|congruence]].
    + intros Hne.
      destruct Hshape as [H|(dl & c & e & Hlog & Hf & Hdl & _)].
      * exists (device_log (trace b)), (CClose r), [].
        rewrite failures_device_log, app_nil_r.
        repeat split; auto.
        rewrite H in Hne. exact Hne.
      * exists dl, c, [CClose r]. rewrite Hlog, Hf, <- app_assoc.
        repeat split; eauto; discriminate.
    + intros Hne H. apply app_eq_nil in H. tauto.
Qed.

(** Every run of the process ends, with these facts. *)
Lemma process_spec (t0 : Z) (sc : list event) (hz : list Process.hazard) :
  exists status s,
    Process.run t0 sc hz = Some (status, s) /\ exit_facts t0 status s.
Proof.
  destruct (monitor_serial_spec t0 sc hz)
    as (how & s1 & E & Hshape & Hfl & Hfacts).
  unfold Process.run, Process.process. rewrite E.
  destruct (flush_at_exit_spec s1) as [Hb Hm].
  destruct (Process.flush_at_exit s1) as [flushed s2]. cbn [fst snd] in *.
  eexists _, _. split; [reflexivity|].
  unfold exit_facts, Process.expected_exit; cbn [Process.base Process.mishaps].
  rewrite Hb. clear Hb E.
  destruct (finalizer_facts t0 s1 (leaving_port _ _ _ Hfacts) Hshape)
    as (H1 & H2 & H3 & H4 & H5 & H6).
  split; [exact H1|]. split; [exact H2|].
  split; [|split; [|split; [exact H3|exact H4]]].
  - (* the exit status *)
    destruct how as [|code|e|]; cbn [leaving_facts] in Hfacts;
      cbn [Process.exit_status].
    + destruct Hfacts as [[Hfa Hmi] (Hpo & _)].
      rewrite (H6 Hpo), Hfa.
      destruct Hm as [[-> ->]|[-> ->]]; rewrite Hmi; reflexivity.
    + destruct Hfacts as (_ & -> & Hint & Hw).
      destruct Hm as [[-> ->]|[-> ->]];
        rewrite ?existsb_app, ?Hint, ?Hfl; cbn; rewrite ?orb_true_r;
        try reflexivity.
      destruct (existsb Process.is_write_failure (Process.mishaps s1));
        [reflexivity|].
      destruct Hw as [Hw|Hw]; [discriminate|].
      apply H5 in Hw.
      now destruct (failures (trace (finalizer (Process.base s1)))).
    + destruct Hfacts as (_ & Hint & Hw).
      destruct Hm as [[-> ->]|[-> ->]];
        rewrite ?existsb_app, ?Hint, ?Hfl, ?Hw; cbn; rewrite ?orb_true_r;
        reflexivity.
    + destruct Hfacts as (_ & Hint).
      destruct Hm as [[-> ->]|[-> ->]];
        rewrite ?existsb_app, ?Hint; reflexivity.
  - (* status 0 *)
    destruct how as [|code|e|]; cbn [leaving_facts] in Hfacts;
      cbn [Process.exit_status].
    + destruct Hfacts as [[Hfa Hmi] Hdone].
      destruct Hm as [[-> ->]|[-> ->]]; [|discriminate].
      intros _. rewrite (H6 (proj1 Hdone)).
      split; [exact Hmi|]. split; [exact Hfa|exact Hdone].
    + destruct Hfacts as (_ & -> & _).
      destruct Hm as [[-> _]|[-> _]]; discriminate.
    + destruct Hm as [[-> _]|[-> _]]; discriminate.
    + discriminate.
Qed.

(** * A process that is left alone *)

Lemma calm_next_hazard (s : Process.state) :
  Process.calm s -> Process.next_hazard s = Process.Calm.
Proof.
  unfold Process.calm, Process.next_hazard.
  destruct (Process.hazards s) as [|h hs]; [reflexivity|].
  intros H. now inversion H.
Qed.

Lemma calm_tl (s : Process.state) :
  Process.calm s -> Forall (fun h => h = Process.Calm) (tl (Process.hazards s)).
Proof.
  unfold Process.calm.
  destruct (Process.hazards s) as [|h hs]; [auto|].
  intros H. now inversion H.
Qed.

Lemma mirrors_call {A} (writes : bool) (m : M A) :
  Process.mirrors (Process.call writes m) m.
Proof.
  intros s Hcalm. unfold Process.call.
  rewrite (calm_next_hazard _ Hcalm). unfold Process.settle.
  destruct (m (Process.base s)) as [[[a|e] b]|]; [| |reflexivity];
    eexists; (split; [reflexivity|]); cbn;
    repeat split; now apply calm_tl.
Qed.

Lemma mirrors_ret {A} (a : A) : Process.mirrors (Process.ret a) (ret a).
Proof. intros s Hcalm. cbn. exists s. now repeat split. Qed.

Lemma mirrors_bind {A B} (mp : Process.M A) (m : M A)
      (kp : A -> Process.M B) (k : A -> M B) :
  Process.mirrors mp m ->
  (forall a, Process.mirrors (kp a) (k a)) ->
  Process.mirrors (Process.bind mp kp) (bind m k).
Proof.
  intros Hm Hk s Hcalm. unfold Process.bind, bind.
  specialize (Hm s Hcalm).
  destruct (m (Process.base s)) as [[[a|e] b]|].
  - destruct Hm as (s' & E & Hb & Hcalm' & Hmi). rewrite E. cbn [Process.inj].
    specialize (Hk a s' Hcalm'). rewrite Hb in Hk.
    destruct (k a b) as [[r2 b2]|]; [|exact Hk].
    destruct Hk as (s2 & E2 & Hb2 & Hcalm2 & Hmi2).
    exists s2. repeat split; try assumption. congruence.
  - destruct Hm as (s' & E & Hb & Hcalm' & Hmi). rewrite E. cbn [Process.inj].
    exists s'. now repeat split.
  - now rewrite Hm.
Qed.

Lemma mirrors_decode (errors : error_handler) (raw : bytes) :
  Process.mirrors (Process.decode errors raw)
                  (lift_result (decode_utf8 errors raw)).
Proof.
  intros s Hcalm. unfold Process.decode, lift_result.
  exists s. split; [|now repeat split].
  now destruct (decode_utf8 errors raw).
Qed.

Lemma mirrors_poll_once : Process.mirrors Process.poll_once poll_once.
Proof.
  unfold Process.poll_once, poll_once.
  apply mirrors_bind; [apply mirrors_call|]. intros n.
  apply mirrors_bind; [|intros _; apply mirrors_call].
  destruct (0 <? n)%nat; [|apply mirrors_ret].
  apply mirrors_bind; [apply mirrors_call|]. intros size.
  apply mirrors_bind; [apply mirrors_call|]. intros raw.
  apply mirrors_bind; [apply mirrors_decode|]. intros data.
  apply mirrors_bind; [apply mirrors_call|]. intros _.
  apply mirrors_call.
Qed.

Lemma mirrors_poll_loop (fuel : nat) (start_time : Z) :
  Process.mirrors (Process.poll_loop fuel start_time)
                  (poll_loop fuel start_time).
Proof.
  induction fuel as [|fuel IH]; [intros s _; reflexivity|].
  cbn [Process.poll_loop poll_loop].
  apply mirrors_bind; [apply mirrors_call|]. intros now.
  destruct (now - start_time <? MONITOR_MS); [|apply mirrors_ret].
  apply mirrors_bind; [apply mirrors_poll_once|]. intros _. exact IH.
Qed.

Lemma mirrors_try_block (fuel : nat) :
  Process.mirrors (Process.try_block fuel) (try_block fuel).
Proof.
  unfold Process.try_block, try_block.
  repeat (apply mirrors_bind; [apply mirrors_call|]; intros ?).
  apply mirrors_bind; [apply mirrors_poll_loop|]. intros _.
  repeat (apply mirrors_bind; [apply mirrors_call|]; intros _).
  apply mirrors_call.
Qed.

(** A process that nothing interrupts and whose standard output takes
    everything does what the script does, and then finalizes the port. *)
Lemma calm_run (t0 : Z) (sc : list event) (hz : list Process.hazard)
      (code : Z) (b : world) :
  Forall (fun h => h = Process.Calm) hz ->
  run t0 sc = Some (code, b) ->
  exists s,
    Process.run t0 sc hz = Some (code, s)
    /\ Process.base s = finalizer b
    /\ Process.mishaps s = [].
Proof.
  intros Hcalm Hrun.
  unfold run, monitor_serial in Hrun.
  unfold Process.run, Process.process, Process.monitor_serial.
  pose proof (mirrors_try_block FUEL (Process.start t0 sc hz) Hcalm) as H.
  cbn [Process.start Process.base] in H.
  destruct (try_block FUEL (boot t0 sc)) as [[[u|e] b1]|]; [| |discriminate].
  - destruct H as (s1 & E & Hb & Hcalm1 & Hmi). rewrite E. cbn [Process.inj].
    injection Hrun as <- <-.
    unfold Process.flush_at_exit. rewrite (calm_next_hazard _ Hcalm1).
    eexists. split; [reflexivity|]. cbn. now rewrite Hb, Hmi.
  - destruct H as (s1 & E & Hb & Hcalm1 & Hmi). rewrite E. cbn [Process.inj].
    injection Hrun as <- <-.
    pose proof (mirrors_call true
                  (print (lit "Error: " ++ str_exn e) newline) s1 Hcalm1) as H2.
    unfold print at 1 in H2.
    destruct H2 as (s2 & E2 & Hb2 & Hcalm2 & Hmi2).
    unfold Process.print. cbn [Process.str_error]. rewrite E2. cbn [Process.inj].
    unfold Process.flush_at_exit. rewrite (calm_next_hazard _ Hcalm2).
    eexists. split; [reflexivity|]. cbn. rewrite Hb2, Hb, Hmi2, Hmi.
    now split.
Qed.

(** * Text on the wire *)

Lemma byte_val_of (z : Z) : 0 <= z < 256 -> byte_val (byte_of z) = z.
Proof.
  intros Hz. unfold byte_val, byte_of.
  destruct (Byte.of_N (Z.to_N z)) as [b|] eqn:E.
  - apply Byte.to_of_N in E. rewrite E. lia.
  - apply Byte.of_N_None_iff in E. lia.
Qed.

Ltac wire_facts :=
  bool_facts;
  repeat match goal with
         | H : _ || _ = true |- _ => apply orb_true_iff in H; destruct H
         | H : _ && _ = false |- _ => apply andb_false_iff in H; destruct H
         | H : (if ?b then _ else _) = true |- _ => destruct b eqn:?
         end;
  bool_facts.

Ltac wire_case :=
  match goal with
  | |- utf8_scan (_ :: ?s) = _ =>
    let t := fresh "t" in
    let E := fresh "E" in
    remember s as t eqn:E; cbn [utf8_scan]; subst t; cbv beta iota zeta
  end;
  rewrite !byte_val_of by lia;
  repeat scan_case; wire_facts;
  rewrite ?Z.shiftl_mul_pow2 in * by lia;
  first [ f_equal; f_equal; lia | exfalso; lia ].

Lemma utf8_scan_two (q r : Z) (rest : bytes) :
  2 <= q < 32 -> 0 <= r < 64 ->
  utf8_scan (byte_of (0xC0 + q) :: byte_of (0x80 + r) :: rest)
  = Char (64 * q + r) 2 :: utf8_scan rest.
Proof. intros Hq Hr. wire_case. Qed.

Lemma utf8_scan_three (a b r : Z) (rest : bytes) :
  0 <= a < 16 -> 0 <= b < 64 -> 0 <= r < 64 ->
  (a = 0 -> 32 <= b) -> (a = 13 -> b < 32) ->
  utf8_scan (byte_of (0xE0 + a) :: byte_of (0x80 + b) :: byte_of (0x80 + r)
               :: rest)
  = Char (4096 * a + 64 * b + r) 3 :: utf8_scan rest.
Proof. intros Ha Hb Hr H0 H13. wire_case. Qed.

Lemma utf8_scan_four (a b c r : Z) (rest : bytes) :
  0 <= a <= 4 -> 0 <= b < 64 -> 0 <= c < 64 -> 0 <= r < 64 ->
  (a = 0 -> 16 <= b) -> (a = 4 -> b < 16) ->
  utf8_scan (byte_of (0xF0 + a) :: byte_of (0x80 + b) :: byte_of (0x80 + c)
               :: byte_of (0x80 + r) :: rest)
  = Char (262144 * a + 4096 * b + 64 * c + r) 4 :: utf8_scan rest.
Proof. intros Ha Hb Hc Hr H0 H4. wire_case. Qed.

(** The decoder reads back what the encoder wrote, whatever follows. *)
Lemma utf8_scan_encode (c : Z) (rest : bytes) :
  scalar_value c ->
  utf8_scan (utf8_encode c ++ rest)
  = Char c (length (utf8_encode c)) :: utf8_scan rest.
Proof.
  intros [Hc Hs]. unfold utf8_encode.
  pose proof (Z.div_mod c 64 ltac:(lia)) as E1.
  pose proof (Z.mod_pos_bound c 64 ltac:(lia)) as B1.
  pose proof (Z.div_mod (c / 64) 64 ltac:(lia)) as E2.
  pose proof (Z.mod_pos_bound (c / 64) 64 ltac:(lia)) as B2.
  pose proof (Z.div_mod (c / 64 / 64) 64 ltac:(lia)) as E3.
  pose proof (Z.mod_pos_bound (c / 64 / 64) 64 ltac:(lia)) as B3.
  assert (D2 : c / 4096 = c / 64 / 64) by (now rewrite Z.div_div by lia).
  assert (D3 : c / 262144 = c / 64 / 64 / 64)
    by (now rewrite !Z.div_div by lia).
  destruct (Z.ltb_spec c 0x80);
    [|destruct (Z.ltb_spec c 0x800); [|destruct (Z.ltb_spec c 0x10000)]];
    cbn [app length].
  - cbn [utf8_scan]. rewrite byte_val_of by lia.
    destruct (Z.ltb_spec c 0x80); [reflexivity|lia].
  - rewrite utf8_scan_two by lia. f_equal. f_equal. lia.
  - rewrite D2.
    set (a := c / 64 / 64) in *. set (b := c / 64) in *.
    rewrite utf8_scan_three by lia. f_equal. f_equal. lia.
  - rewrite D2, D3.
    assert (M2 : (c / 64 / 64) mod 64 = (c / 4096) mod 64) by now rewrite D2.
    set (a := c / 64 / 64 / 64) in *. set (b := c / 64 / 64) in *.
    set (d := c / 64) in *.
    rewrite utf8_scan_four by lia. f_equal. f_equal. lia.
Qed.

Lemma utf8_scan_junk (b : byte) (rest : bytes) :
  junk_byte b = true ->
  utf8_scan (b :: rest)
  = Malformed InvalidStart (byte_val b) 1 :: utf8_scan rest.
Proof.
  intros H. unfold junk_byte in H.
  pose proof (byte_val_range b).
  remember rest as t eqn:E. cbn [utf8_scan]. subst t.
  repeat scan_case; wire_facts; first [reflexivity | exfalso; lia].
Qed.

(** Lenient decoding keeps every character and drops every stray byte. *)
Lemma lenient_pieces (ps : list piece) :
  Forall well_formed_piece ps ->
  lenient (flat_map piece_bytes ps) = flat_map piece_text ps.
Proof.
  unfold lenient.
  induction 1 as [|p ps Hp _ IH]; [reflexivity|].
  cbn [flat_map]. destruct p as [c|b]; cbn [piece_bytes piece_text].
  - rewrite (utf8_scan_encode c _ Hp). cbn [kept app]. now rewrite IH.
  - cbn [app]. rewrite (utf8_scan_junk b _ Hp). cbn [kept app]. exact IH.
Qed.

(** * A device that sends between the rounds *)

(** A round that finds the buffer empty. *)
Lemma idle_round (w : world) :
  rx w = [] ->
  arrived (next_event w) = [] ->
  fault (next_event w) = None ->
  poll_once w
  = Some (Ok tt,
          {| clock := clock w + POLL_MS; stdout := stdout w; rx := [];
             port_open := port_open w; read_timeout := read_timeout w;
             script := tl (script w);
             trace := trace w ++ [CInWaiting (Ok 0%nat); CSleep POLL_MS] |}).
Proof.
  intros Hrx Har Hf.
  unfold poll_once, bind, ser_in_waiting, time_sleep, ret.
  rewrite Hrx, Har, Hf. cbn. now rewrite <- app_assoc.
Qed.

(** A round that finds the bytes [a], when nothing else arrives. *)
Lemma busy_round (w : world) (a : bytes) (rest : list event) :
  rx w = [] ->
  a <> [] ->
  script w = ev_bytes a :: quiet :: quiet :: rest ->
  poll_once w
  = Some (Ok tt,
          {| clock := clock w + Z.min 0 (read_timeout w) + POLL_MS;
             stdout := stdout w ++ lenient a; rx := [];
             port_open := port_open w; read_timeout := read_timeout w;
             script := rest;
             trace := trace w ++ [CInWaiting (Ok (length a));
                                  CInWaiting (Ok (length a));
                                  CRead (length a) (Ok a);
                                  CWrite (lenient a);
                                  CFlush;
                                  CSleep POLL_MS] |}).
Proof.
  intros Hrx Ha Hsc.
  assert (Hn : (0 <? length a)%nat = true)
    by (destruct a; [congruence|reflexivity]).
  unfold poll_once, bind, ser_in_waiting, ser_read, lift_result, print,
    stdout_flush, time_sleep, ret, write, next_event.
  rewrite Hsc, Hrx.
  cbn -[Nat.ltb decode_utf8 firstn skipn length Z.add Z.min lenient].
  rewrite Hn.
  cbn -[Nat.ltb decode_utf8 firstn skipn length Z.add Z.min lenient].
  rewrite ?app_nil_r, firstn_all, skipn_all, decode_ignore.
  cbn -[Nat.ltb decode_utf8 firstn skipn length Z.add Z.min lenient].
  rewrite <- ?app_assoc, ?app_nil_r. reflexivity.
Qed.

Lemma skipn_nil_more {A} (n : nat) (l : list A) :
  skipn n l = [] -> skipn (S n) l = [] /\ firstn (S n) l = firstn n l.
Proof.
  revert l. induction n as [|n IH]; intros [|x l] H; cbn in *;
    try discriminate; auto.
  destruct (IH l H) as [H1 H2]. split; [exact H1|]. now rewrite <- H2.
Qed.

Lemma skipn_cons_more {A} (n : nat) (l : list A) (x : A) (rest : list A) :
  skipn n l = x :: rest ->
  skipn (S n) l = rest /\ firstn (S n) l = firstn n l ++ [x].
Proof.
  revert l. induction n as [|n IH]; intros [|y l] H; cbn in *;
    try discriminate.
  - injection H as -> ->. auto.
  - destruct (IH l H) as [H1 H2]. split; [exact H1|]. now rewrite <- H2.
Qed.

Lemma filter_last {A} (f : A -> bool) (l : list A) (x : A) :
  filter f (l ++ [x]) = filter f l ++ (if f x then [x] else []).
Proof. rewrite filter_app. reflexivity. Qed.

(** One round of a paced run reads what arrived for that round. *)
Lemma paced_round (t0 : Z) (arrivals : list bytes) (w : world) :
  paced t0 arrivals w ->
  exists w', poll_once (tick w) = Some (Ok tt, w') /\ paced t0 arrivals w'.
Proof.
  unfold paced, rounds. intros (Hsc & Hrx & Hch & Hclk).
  destruct (skipn (length (sleeps (trace w))) arrivals) as [|a rest] eqn:Esk.
  - (* the device has nothing more to send *)
    destruct (skipn_nil_more _ _ Esk) as [Hsk Hfi].
    eexists. split.
    + apply idle_round; unfold next_event; cbn [tick rx script];
        rewrite ?Hsc; auto.
    + cbn [trace script rx tick clock]. rewrite Hsc.
      rewrite <- !app_assoc, !sleeps_app, !chunks_app, !length_app.
      cbn [sleeps chunks flat_map sleep_of chunk_of app length tl].
      rewrite Nat.add_1_r, Hsk, Hfi, !app_nil_r.
      repeat split; auto. unfold POLL_MS in *. lia.
  - destruct (skipn_cons_more _ _ _ _ Esk) as [Hsk Hfi].
    destruct a as [|x a].
    + (* nothing arrived for this round *)
      eexists. split.
      * apply idle_round; unfold next_event; cbn [tick rx script];
          rewrite ?Hsc; auto.
      * cbn [trace script rx tick clock]. rewrite Hsc.
        rewrite <- !app_assoc, !sleeps_app, !chunks_app, !length_app.
        cbn [sleeps chunks flat_map sleep_of chunk_of app length tl
             round_events].
        rewrite Nat.add_1_r, Hsk, Hfi, filter_last, !app_nil_r.
        repeat split; auto. unfold POLL_MS in *. lia.
    + (* bytes arrived for this round *)
      eexists. split.
      * apply busy_round with (a := x :: a)
                              (rest := flat_map round_events rest);
          cbn [tick rx script]; rewrite ?Hsc; auto; discriminate.
      * cbn [trace script rx tick clock read_timeout].
        rewrite <- !app_assoc, !sleeps_app, !chunks_app, !length_app.
        cbn [sleeps chunks flat_map sleep_of chunk_of app length].
        rewrite Nat.add_1_r, Hsk, Hfi, filter_last, Hch.
        repeat split; auto. unfold POLL_MS in *. lia.
Qed.

Lemma paced_write (t0 : Z) (arrivals : list bytes) (w : world) (s : pystr) :
  paced t0 arrivals w -> paced t0 arrivals (write s w).
Proof.
  unfold paced, rounds, write. cbn. rewrite sleeps_app, chunks_app.
  cbn. now rewrite !app_nil_r.
Qed.

Lemma paced_tick (t0 : Z) (arrivals : list bytes) (w : world) :
  paced t0 arrivals w -> paced t0 arrivals (tick w).
Proof.
  unfold paced, rounds, tick. cbn. rewrite sleeps_app, chunks_app.
  cbn. now rewrite !app_nil_r.
Qed.

Lemma paced_no_fault (arrivals : list bytes) :
  Forall no_fault (paced_script arrivals).
Proof.
  unfold paced_script. constructor; [reflexivity|].
  induction arrivals as [|a arrivals IH]; [constructor|].
  cbn [flat_map]. apply Forall_app. split; [|exact IH].
  destruct a; repeat constructor.
Qed.

Lemma lenient_nonempty (l : list bytes) :
  concat (map lenient (filter nonempty l)) = concat (map lenient l).
Proof.
  induction l as [|a l IH]; [reflexivity|].
  destruct a; cbn [filter nonempty map concat]; now rewrite IH.
Qed.

(** A paced run: every round reads what arrived for it, in one chunk,
    and the text of the chunks is what is printed. *)
Lemma paced_run (t0 : Z) (arrivals : list bytes) :
  exists w,
    run t0 (paced_script arrivals) = Some (0, w)
    /\ (1 <= rounds w)%nat
    /\ chunks (trace w) = filter nonempty (firstn (rounds w) arrivals)
    /\ stdout w
       = header ++ concat (map lenient (firstn (rounds w) arrivals)) ++ footer.
Proof.
  destruct (run_spec t0 (paced_script arrivals)) as (code & w & en & E & Hpost).
  pose proof (run_status _ _ _ _ _ Hpost) as Hcode.
  pose proof (run_stdout _ _ _ _ _ Hpost) as Hout.
  assert (Hen : en = Completed).
  { destruct Hpost as (_ & _ & _ & _ & _ & _ & _ & _ & _ & _ & _ & _ & _ & H & _).
    apply H, paced_no_fault. }
  subst en code. exists w. split; [exact E|].
  assert (Hch : (1 <= rounds w)%nat
                /\ chunks (trace w)
                   = filter nonempty (firstn (rounds w) arrivals)).
  { apply (script_rule
             (fun w => w = boot t0 (paced_script arrivals))
             (fun w => paced t0 arrivals w /\ t0 <= clock w)
             (fun w => paced t0 arrivals w /\ (1 <= rounds w)%nat)
             (fun w => (1 <= rounds w)%nat
                       /\ chunks (trace w)
                          = filter nonempty (firstn (rounds w) arrivals))
             (fun st w => paced t0 arrivals w /\ t0 <= st))
      with (t0 := t0) (sc := paced_script arrivals) (code := 0);
      try reflexivity; try exact E.
    - intros w0 r w' -> H. cbn in H. injection H as <- <-.
      unfold paced, rounds. cbn. repeat split; auto; lia.
    - intros w0 s [Hp Hc]. split; [now apply paced_write|exact Hc].
    - intros w0 [Hp Hc]. split; [now apply paced_tick|exact Hc].
    - intros st w0 r w' [Hp Hst] _ H.
      destruct (paced_round t0 arrivals w0 Hp) as (w1 & E1 & Hp1).
      rewrite E1 in H. injection H as <- <-. now split.
    - intros st w0 [Hp Hst] Hend. split; [now apply paced_tick|].
      destruct Hp as (_ & _ & _ & Hclk).
      unfold rounds, tick in *. cbn. rewrite sleeps_app. cbn.
      rewrite app_nil_r.
      unfold POLL_MS, MONITOR_MS, ms_of_seconds in *. lia.
    - intros w0 s [Hp Hr]. split; [now apply paced_write|].
      unfold rounds, write in *. cbn. rewrite sleeps_app. cbn.
      now rewrite app_nil_r.
    - intros w0 r w' [(Hsc & Hrx & Hc & _) Hr] H.
      unfold ser_close, next_event in H.
      unfold rounds in *. rewrite Hsc in H.
      assert (Hf : fault match flat_map round_events
                                  (skipn (length (sleeps (trace w0))) arrivals)
                          with [] => quiet | ev :: _ => ev end = None).
      { destruct (skipn (length (sleeps (trace w0))) arrivals) as [|[|x a] l];
          reflexivity. }
      rewrite Hf in H. injection H as <- <-. cbn.
      rewrite sleeps_app, chunks_app. cbn. now rewrite !app_nil_r. }
  destruct Hch as [Hr Hch].
  split; [exact Hr|]. split; [exact Hch|].
  rewrite Hout. cbn [ending_stdout]. unfold device_text.
  now rewrite Hch, lenient_nonempty.
Qed.

(** * The claims about the whole process *)

(** C1. The device handle is released on every exit path.  Whatever the
    device does, whenever the process is interrupted and whenever
    standard output fails, the process ends, and when it has ended: if
    the port was opened, the last call that the process made to the
    driver is a close; the port is closed, unless a call of close itself
    raised.  On the normal path (exit status 0) the close is the one of
    the try block, called after the loop and the two lines of the
    footer.  On the other paths the try block never reaches its close:
    the port is closed by the finalizer that [serial.Serial] inherits
    from [io.RawIOBase], when the interpreter shuts down. *)
Theorem port_released_on_every_exit (t0 : Z) (sc : list event)
        (hz : list Process.hazard) :
  exists status s,
    Process.run t0 sc hz = Some (status, s)
    /\ (opened (trace (Process.base s)) = true ->
        exists dl r, device_log (trace (Process.base s)) = dl ++ [CClose r])
    /\ (port_open (Process.base s) = false
        \/ close_failed (trace (Process.base s)) = true)
    /\ (status = 0 ->
        port_open (Process.base s) = false
        /\ exists tr, trace (Process.base s) = tr ++ closing_calls).
Proof.
  destruct (process_spec t0 sc hz) as (status & s & E & H1 & H2 & _ & H4 & _).
  exists status, s. split; [exact E|]. split; [exact H1|]. split; [exact H2|].
  intros H0. destruct (H4 H0) as (_ & _ & Hpo & _ & Htr). now split.
Qed.

Lemma port_released_on_every_exit_witness :
  exists s,
    Process.run 0 unplugged_script [] = Some (1, s)
    /\ opened (trace (Process.base s)) = true
    /\ (exists dl r, device_log (trace (Process.base s)) = dl ++ [CClose r])
    /\ port_open (Process.base s) = false.
Proof.
  destruct (port_released_on_every_exit 0 unplugged_script [])
    as (status & s & E & Hclose & Hport & _).
  assert (Hs : Process.run 0 unplugged_script [] = Some (1, s)
               /\ opened (trace (Process.base s)) = true
               /\ close_failed (trace (Process.base s)) = false).
  { vm_compute in E. injection E as <- <-. vm_compute. auto. }
  destruct Hs as (Hrun & Hop & Hcf).
  exists s. split; [exact Hrun|]. split; [exact Hop|].
  split; [exact (Hclose Hop)|].
  destruct Hport as [H|H]; [exact H|congruence].
Defined.

(** C4, as stated, does not hold: the exit status is 130 when SIGINT
    arrives during the run ([except Exception] does not catch
    [KeyboardInterrupt]), and 120 when the flush of standard output at
    exit fails after a run without any exception. *)
Lemma exit_status_outside_zero_and_one :
  (exists s, Process.run 0 [] interrupted_hazards = Some (130, s))
  /\ (exists s,
         Process.run 0 [] unflushable_hazards = Some (120, s)
         /\ failures (trace (Process.base s)) = []
         /\ MONITOR_MS <= clock (Process.base s) - 0).
Proof.
  split.
  - eexists. vm_compute. reflexivity.
  - eexists. split; [vm_compute; reflexivity|].
    split; [vm_compute; reflexivity|].
    vm_compute. discriminate.
Qed.

(** C4, amended.  Every run of the process ends with one of the statuses
    0, 1, 120, 130, and the status is read off what happened: 130 if
    SIGINT interrupted the run; otherwise 120 if the flush of standard
    output at exit failed; otherwise 1 if a write to standard output
    raised or a driver call (open, in_waiting, read, close) raised;
    otherwise 0.  Status 0 means that nothing was interrupted, that no
    call raised and that the try block ran to its end, which takes at
    least the monitoring duration.  Decoding never raises: the only
    exceptions of the driver calls are [SerialException]s.  A process
    that is not interrupted and whose standard output works exits with
    0 if no driver call raised and with 1 otherwise.  (SIGINT is the
    only signal of the model: a process that another signal kills does
    not exit by itself.) *)
Theorem exit_status_of_process (t0 : Z) (sc : list event)
        (hz : list Process.hazard) :
  exists status s,
    Process.run t0 sc hz = Some (status, s)
    /\ status = Process.expected_exit s
    /\ (status = 0 \/ status = 1 \/ status = 120 \/ status = 130)
    /\ (status = 0 ->
        Process.mishaps s = []
        /\ failures (trace (Process.base s)) = []
        /\ MONITOR_MS <= clock (Process.base s) - t0)
    /\ Forall is_serial (failures (trace (Process.base s)))
    /\ (Forall (fun h => h = Process.Calm) hz ->
        Process.mishaps s = []
        /\ status = expected_status (trace (Process.base s))).
Proof.
  destruct (process_spec t0 sc hz)
    as (status & s & E & _ & _ & Hst & H0 & Hser & _).
  exists status, s. split; [exact E|]. split; [exact Hst|].
  split; [|split; [|split; [exact Hser|]]].
  - rewrite Hst. unfold Process.expected_exit.
    repeat match goal with
           | |- context [if ?b then _ else _] => destruct b
           end; auto.
  - intros H. destruct (H0 H) as (Hmi & Hfa & _ & Hclk & _). auto.
  - intros Hcalm.
    destruct (run_total t0 sc) as (code & b & Hrun).
    destruct (calm_run t0 sc hz code b Hcalm Hrun) as (s' & E' & _ & Hmi).
    rewrite E in E'. injection E' as -> ->.
    split; [exact Hmi|].
    rewrite Hst. unfold Process.expected_exit, expected_status.
    now rewrite Hmi.
Qed.

Lemma exit_status_of_process_witness :
  exists s,
    Process.run 0 unplugged_script [Process.StdoutError (lit "Broken pipe")]
    = Some (1, s)
    /\ Process.expected_exit s = 1
    /\ failures (trace (Process.base s)) <> [].
Proof.
  destruct (exit_status_of_process 0 unplugged_script
              [Process.StdoutError (lit "Broken pipe")])
    as (status & s & E & Hst & _).
  assert (Hs : status = 1 /\ failures (trace (Process.base s)) <> []).
  { vm_compute in E. injection E as <- <-. split; [reflexivity|].
    vm_compute. discriminate. }
  destruct Hs as [-> Hfa].
  exists s. split; [exact E|]. split; [now rewrite <- Hst|exact Hfa].
Defined.



(** * Further properties of the process *)

(** X4. Nothing is retried after a failure.  In every run of the
    process, whatever interrupts it, at most one driver call of the
    script fails: when a driver call has raised, no driver call before
    it had raised and the only driver call that can follow it is the
    one close of the finalizer. *)
Theorem no_driver_call_after_a_failure (t0 : Z) (sc : list event)
        (hz : list Process.hazard) (status : Z) (s : Process.state) :
  Process.run t0 sc hz = Some (status, s) ->
  failures (trace (Process.base s)) <> [] ->
  exists dl c fin,
    device_log (trace (Process.base s)) = dl ++ [c] ++ fin
    /\ failures dl = []
    /\ failure_of c <> []
    /\ (fin = [] \/ exists r, fin = [CClose r]).
Proof.
  intros Hrun Hfa.
  destruct (process_spec t0 sc hz)
    as (status' & s' & E & _ & _ & _ & _ & _ & H).
  rewrite E in Hrun. injection Hrun as <- <-. exact (H Hfa).
Qed.

Lemma no_driver_call_after_a_failure_witness :
  exists s dl c fin,
    Process.run 0 unplugged_script [] = Some (1, s)
    /\ device_log (trace (Process.base s)) = dl ++ [c] ++ fin
    /\ failures dl = []
    /\ failure_of c <> [].
Proof.
  assert (Hrun : exists s, Process.run 0 unplugged_script [] = Some (1, s))
    by (eexists; vm_compute; reflexivity).
  destruct Hrun as (s & Hrun).
  destruct (no_driver_call_after_a_failure 0 unplugged_script [] 1 s Hrun)
    as (dl & c & fin & Hlog & Hdl & Hc & _).
  { vm_compute in Hrun. injection Hrun as <-. vm_compute. discriminate. }
  exists s, dl, c, fin. auto.
Defined.

(** * Further properties of the reading *)



Lemma ascii_firstn (n : nat) (arrivals : list bytes) :
  Forall ascii_bytes arrivals ->
  concat (map lenient (firstn n arrivals))
  = map byte_val (concat (firstn n arrivals)).
Proof.
  intros H. rewrite concat_map. f_equal.
  apply map_ext_Forall.
  rewrite <- (firstn_skipn n arrivals) in H. apply Forall_app in H.
  destruct H as [H _].
  revert H. apply Forall_impl. intros a. apply lenient_ascii.
Qed.


